(** * fix-hooks-final.py: relocating hook calls out of a parameter list

    The script rewrites TSX component files in which two hook lines were
    placed inside the destructured parameter list of a component.  Its whole
    logic is one regular expression handed to [re.sub] together with a
    [replacer] callback, wrapped in a driver that reads each listed file,
    writes the new text back when it differs and counts the files it fixed.

    The development embeds
    - the fragment of Python's backtracking regular expressions the pattern
      uses (literals, character classes, greedy [?] and [+], capture groups),
      with the search order of the [re] module;
    - [pattern], [replacer] and the text part of [fix_file];
    - the driver over a file system and a console, with Python's exceptions.

    Text is a list of characters; a character is a code point below 256.
    The content of a file is the text [f.read()] returns for it. *)

From Stdlib Require Import Ascii String List Arith Lia Bool.
From stdpp Require Import base option list strings gmap.
Import ListNotations.

Local Open Scope nat_scope.
Local Open Scope list_scope.

(** ** Text *)

Abbreviation text := (list ascii).

(** A string literal as text. *)
Definition txt (s : string) : text := list_ascii_of_string s.

Definition nl : ascii := "010"%char.
Definition comma : ascii := ","%char.
Definition gt : ascii := ">"%char.

Definition text_eqb (a b : text) : bool := bool_decide (a = b).

(** ** Character classes

    [\w] on a [str] pattern is [ch.isalnum() or ch == '_'] over Unicode;
    below 256 those are the ASCII letters and digits, the underscore and the
    Latin-1 letters and numerics listed here. *)

Definition between (lo hi n : nat) : bool := (lo <=? n) && (n <=? hi).

Definition is_word (a : ascii) : bool :=
  let n := nat_of_ascii a in
  between 48 57 n || between 65 90 n || (n =? 95) || between 97 122 n
  || (n =? 170) || between 178 179 n || (n =? 181) || between 185 186 n
  || between 188 190 n || between 192 214 n || between 216 246 n
  || between 248 255 n.

Inductive cset : Type :=
  | CWord               (* \w *)
  | CNot (c : ascii).   (* [^c] *)

Definition in_class (c : cset) (a : ascii) : bool :=
  match c with
  | CWord => is_word a
  | CNot x => negb (bool_decide (a = x))
  end.

(** ** Regular expressions and the backtracking matcher *)

Inductive regex : Type :=
  | Lit (l : text)                (* the characters of l, in order *)
  | Class (c : cset)              (* one character of the class *)
  | Seq (r1 r2 : regex)           (* r1 r2 *)
  | Opt (r : regex)               (* r?  greedy *)
  | Plus (r : regex)              (* r+  greedy *)
  | Group (i : nat) (r : regex).  (* ( r ), capture group number i *)

Infix "⋅" := Seq (at level 41, right associativity).

(** Captured groups, most recent first. *)
Definition caps := list (nat * text).

Fixpoint strip_prefix (l s : text) : option text :=
  match l, s with
  | [], _ => Some s
  | a :: l', b :: s' => if bool_decide (a = b) then strip_prefix l' s' else None
  | _ :: _, [] => None
  end.

(** The loop of a greedy [r+], over the matcher [body] of [r]: one iteration,
    then as many more as possible before settling for fewer.  The fuel bounds
    the number of iterations; a body that consumes a character at each
    iteration never uses it up ([run_complete]). *)
Fixpoint plus_loop (body : caps -> text -> list (caps * text))
    (fuel : nat) (cs : caps) (s : text) : list (caps * text) :=
  match fuel with
  | 0 => []
  | S fuel' =>
      flat_map (fun '(cs1, s1) => plus_loop body fuel' cs1 s1 ++ [(cs1, s1)])
               (body cs s)
  end.

(** [run r cs s] lists every way [r] can match a prefix of [s], in the order
    a backtracking matcher tries them: each entry is the captures so far and
    the text left.  A greedy operator lists the longer alternative first. *)
Fixpoint run (r : regex) (cs : caps) (s : text) : list (caps * text) :=
  match r with
  | Lit l =>
      match strip_prefix l s with
      | Some s' => [(cs, s')]
      | None => []
      end
  | Class c =>
      match s with
      | a :: s' => if in_class c a then [(cs, s')] else []
      | [] => []
      end
  | Seq r1 r2 =>
      flat_map (fun '(cs1, s1) => run r2 cs1 s1) (run r1 cs s)
  | Opt r1 => run r1 cs s ++ [(cs, s)]
  | Plus r1 => plus_loop (run r1) (S (length s)) cs s
  | Group i r1 =>
      map (fun '(cs1, s1) => ((i, take (length s - length s1) s) :: cs1, s1))
          (run r1 cs s)
  end.

(** [pattern.match(s)] anchored at the start of [s]: the first success. *)
Definition match_here (r : regex) (s : text) : option (caps * text) :=
  head (run r [] s).

(** [match.group(i)] *)
Fixpoint group (i : nat) (cs : caps) : text :=
  match cs with
  | [] => []
  | (j, w) :: cs' => if Nat.eqb i j then w else group i cs'
  end.

(** ** The pattern of [fix_file]

    (export const \w+ = (?:React\.memo<[^>]+>\()?\(\{)\n
      (const \{ colors[^\n]+\n  const styles[^\n]+)\n\n
    ((?:  [^\n]+,?\n)+)(\}\) => \{) *)

Definition header_re : regex :=
  Lit (txt "export const ") ⋅ Plus (Class CWord) ⋅ Lit (txt " = ")
  ⋅ Opt (Lit (txt "React.memo<") ⋅ Plus (Class (CNot gt)) ⋅ Lit (txt ">("))
  ⋅ Lit (txt "({").

Definition hooks_re : regex :=
  Lit (txt "const { colors") ⋅ Plus (Class (CNot nl))
  ⋅ Lit (nl :: txt "  const styles") ⋅ Plus (Class (CNot nl)).

Definition param_line_re : regex :=
  Lit (txt "  ") ⋅ Plus (Class (CNot nl)) ⋅ Opt (Lit [comma]) ⋅ Lit [nl].

Definition pattern : regex :=
  Group 1 header_re
  ⋅ Lit (nl :: txt "  ")
  ⋅ Group 2 hooks_re
  ⋅ Lit [nl; nl]
  ⋅ Group 3 (Plus param_line_re)
  ⋅ Group 4 (Lit (txt "}) => {")).

(** f"{func_start}\n{params}{func_arrow}\n  {hooks}\n" *)
Definition replacer (m : caps) : text :=
  let func_start := group 1 m in
  let hooks := group 2 m in
  let params := group 3 m in
  let func_arrow := group 4 m in
  func_start ++ [nl] ++ params ++ func_arrow ++ (nl :: txt "  ") ++ hooks ++ [nl].

(** ** [re.sub]

    The scan tries the pattern at each position from the left; a match is
    replaced and the scan resumes right after it, otherwise the character is
    copied and the scan moves one position on.  The pattern never matches the
    empty text, so every step consumes a character and the length of the text
    is enough fuel ([sub_loop_fuel]). *)
Fixpoint sub_loop (fuel : nat) (r : regex) (repl : caps -> text) (s : text) : text :=
  match fuel with
  | 0 => s
  | S fuel' =>
      match match_here r s with
      | Some (m, rest) => repl m ++ sub_loop fuel' r repl rest
      | None =>
          match s with
          | [] => []
          | a :: s' => a :: sub_loop fuel' r repl s'
          end
      end
  end.

Definition re_sub (r : regex) (repl : caps -> text) (s : text) : text :=
  sub_loop (S (length s)) r repl s.

(** [re.sub(pattern, replacer, content)] *)
Local Abbreviation sub := (re_sub pattern replacer).

(** The text part of [fix_file]: the new content and [content != original]. *)
Definition rewrite (original : text) : text * bool :=
  let content := sub original in
  (content, negb (text_eqb content original)).

(** The spans [re.sub] replaces, as [re.finditer] reports them: the same
    scan, recording where each match starts and ends. *)
Fixpoint spans_loop (fuel pos : nat) (r : regex) (s : text) : list (nat * nat) :=
  match fuel with
  | 0 => []
  | S fuel' =>
      match match_here r s with
      | Some (_, rest) =>
          let stop := pos + (length s - length rest) in
          (pos, stop) :: spans_loop fuel' stop r rest
      | None =>
          match s with
          | [] => []
          | _ :: s' => spans_loop fuel' (S pos) r s'
          end
      end
  end.

Definition finditer (r : regex) (s : text) : list (nat * nat) :=
  spans_loop (S (length s)) 0 r s.

(** The spans of the matches of [pattern] in [s], counted from [pos]. *)
Definition spans_from (pos : nat) (s : text) : list (nat * nat) :=
  spans_loop (S (length s)) pos pattern s.

(** ** What a regular expression matches

    [Matches r w cs cs']: the text [w] is matched by [r], taking the captures
    from [cs] to [cs'].  This is the set of matches, with no order among
    them. *)
Inductive Matches : regex -> text -> caps -> caps -> Prop :=
  | M_Lit l cs : Matches (Lit l) l cs cs
  | M_Class c a cs :
      in_class c a = true -> Matches (Class c) [a] cs cs
  | M_Seq r1 r2 w1 w2 cs cs1 cs2 :
      Matches r1 w1 cs cs1 -> Matches r2 w2 cs1 cs2 ->
      Matches (r1 ⋅ r2) (w1 ++ w2) cs cs2
  | M_Opt_some r w cs cs' : Matches r w cs cs' -> Matches (Opt r) w cs cs'
  | M_Opt_none r cs : Matches (Opt r) [] cs cs
  | M_Plus_one r w cs cs' : Matches r w cs cs' -> Matches (Plus r) w cs cs'
  | M_Plus_more r w1 w2 cs cs1 cs2 :
      Matches r w1 cs cs1 -> Matches (Plus r) w2 cs1 cs2 ->
      Matches (Plus r) (w1 ++ w2) cs cs2
  | M_Group i r w cs cs' :
      Matches r w cs cs' -> Matches (Group i r) w cs ((i, w) :: cs').

(** A regular expression that can match the empty text, and one in which no
    repeated body can: for those the fuel of [plus_loop] is never used up. *)
Fixpoint nullable (r : regex) : bool :=
  match r with
  | Lit l => bool_decide (l = [])
  | Class _ => false
  | Seq r1 r2 => nullable r1 && nullable r2
  | Opt _ => true
  | Plus r1 => nullable r1
  | Group _ r1 => nullable r1
  end.

Fixpoint productive (r : regex) : bool :=
  match r with
  | Lit _ | Class _ => true
  | Seq r1 r2 => productive r1 && productive r2
  | Opt r1 | Group _ r1 => productive r1
  | Plus r1 => negb (nullable r1) && productive r1
  end.

(** ** The defect block, as the pattern cuts it

    A block is the text of one match: the header (group 1), a newline and two
    spaces, the two hook lines (group 2), an empty line, the parameter lines
    (group 3) and the closer (group 4). *)

Definition kw : text := txt "export const ".
Definition closer : text := txt "}) => {".

(** [[^\n]+]: a non-empty run of characters with no newline. *)
Definition is_line (l : text) : Prop := l ≠ [] ∧ Forall (fun a => a ≠ nl) l.

(** [(?:React\.memo<[^>]+>\()?] *)
Inductive is_wrapper : text -> Prop :=
  | no_wrapper : is_wrapper []
  | memo_wrapper x :
      x ≠ [] -> Forall (fun a => a ≠ gt) x ->
      is_wrapper (txt "React.memo<" ++ x ++ txt ">(").

(** [export const \w+ = (?:React\.memo<[^>]+>\()?\(\{] *)
Definition is_header (g : text) : Prop :=
  ∃ name wr, name ≠ [] ∧ Forall (fun a => is_word a = true) name ∧ is_wrapper wr
             ∧ g = kw ++ name ++ txt " = " ++ wr ++ txt "({".

(** [const \{ colors[^\n]+\n  const styles[^\n]+] *)
Definition is_hooks (g : text) : Prop :=
  ∃ l1 l2, is_line l1 ∧ is_line l2
           ∧ g = txt "const { colors" ++ l1 ++ nl :: txt "  const styles" ++ l2.

(** [  [^\n]+,?\n]: two spaces, then a non-empty rest of line of any
    characters, and the newline. *)
Definition is_param_line (p : text) : Prop :=
  ∃ l, is_line l ∧ p = txt "  " ++ l ++ [nl].

(** [(?:  [^\n]+,?\n)+] *)
Definition is_params (g : text) : Prop :=
  ∃ ps, ps ≠ [] ∧ Forall is_param_line ps ∧ g = concat ps.

Record block : Type := Block {
  func_start : text;   (* group 1 *)
  hooks : text;        (* group 2 *)
  params : text        (* group 3 *)
}.

Definition is_block (b : block) : Prop :=
  is_header (func_start b) ∧ is_hooks (hooks b) ∧ is_params (params b).

(** The text of a block as the pattern matches it, the captures of that
    match, and the text [replacer] returns for it. *)
Definition block_text (b : block) : text :=
  func_start b ++ (nl :: txt "  ") ++ hooks b ++ [nl; nl] ++ params b ++ closer.

Definition block_caps (b : block) : caps :=
  [(4, closer); (3, params b); (2, hooks b); (1, func_start b)].

Definition block_fixed (b : block) : text :=
  func_start b ++ [nl] ++ params b ++ closer ++ (nl :: txt "  ") ++ hooks b ++ [nl].

(** [T] contains an instance of the defect shape. *)
Definition has_instance (T : text) : Prop :=
  ∃ pre b post, is_block b ∧ T = pre ++ block_text b ++ post.

(** The positions of [T] at which the pattern matches, by trying each. *)
Definition match_positions (T : text) : list nat :=
  filter (fun i => is_Some (match_here pattern (drop i T))) (seq 0 (S (length T))).

(** The positions of [T] at which the text [k] occurs. *)
Definition occurrences (k T : text) : list nat :=
  filter (fun i => is_Some (strip_prefix k (drop i T))) (seq 0 (S (length T))).

(** The number of leading spaces of a line. *)
Fixpoint indent (l : text) : nat :=
  match l with
  | a :: l' => if bool_decide (a = " "%char) then S (indent l') else 0
  | [] => 0
  end.

(** [s.split('\n')] *)
Fixpoint split_lines (s : text) : list text :=
  match s with
  | [] => [[]]
  | a :: s' =>
      if bool_decide (a = nl) then [] :: split_lines s'
      else match split_lines s' with
           | l :: ls => (a :: l) :: ls
           | [] => [[a]]
           end
  end.

(** ** The driver

    The file system maps a path to a file; a path with no entry does not
    exist.  A file that cannot be read, or cannot be written, makes [open]
    raise an [OSError] other than [FileNotFoundError].  The console is the
    list of lines printed so far. *)

Inductive exn : Type :=
  | FileNotFoundError
  | OtherError.      (* any other subclass of Exception *)

Record file : Type := File {
  content : text;
  readable : bool;
  writable : bool
}.

Inductive message : Type :=
  | MsgStart                          (* Fixing hook placements... *)
  | MsgFixed (filepath : string)      (* Fixed: {filepath} *)
  | MsgNoChange (filepath : string)   (* Skip: {filepath} (no changes needed) *)
  | MsgNotFound (filepath : string)   (* Skip: {filepath} (not found) *)
  | MsgError (filepath : string)      (* Error: {filepath} - {e} *)
  | MsgTotal (fixed : nat).           (* Fixed {fixed} files! *)

Record world : Type := World {
  fs : gmap string file;
  console : list message
}.

(** Computations that read and change the world and may raise. *)
Definition IO (A : Type) : Type := world -> (A + exn) * world.

#[export] Instance IO_ret : MRet IO := fun A a w => (inl a, w).
#[export] Instance IO_bind : MBind IO := fun A B k m w =>
  match m w with
  | (inl a, w') => k a w'
  | (inr e, w') => (inr e, w')
  end.

(** [try: m except Exception as e: handler e] *)
Definition try_except {A} (m : IO A) (handler : exn -> IO A) : IO A :=
  fun w => match m w with
           | (inl a, w') => (inl a, w')
           | (inr e, w') => handler e w'
           end.

(** [open(filepath, 'r')] and [f.read()] *)
Definition read_file (filepath : string) : IO text :=
  fun w => match fs w !! filepath with
           | None => (inr FileNotFoundError, w)
           | Some f => if readable f then (inl (content f), w)
                       else (inr OtherError, w)
           end.

(** [open(filepath, 'w')] and [f.write(content)]; a path with no entry is
    created. *)
Definition write_file (filepath : string) (c : text) : IO unit :=
  fun w => match fs w !! filepath with
           | None => (inl (), World (<[filepath := File c true true]> (fs w)) (console w))
           | Some f =>
               if writable f
               then (inl (), World (<[filepath := File c (readable f) true]> (fs w))
                                   (console w))
               else (inr OtherError, w)
           end.

Definition print (m : message) : IO unit :=
  fun w => (inl (), World (fs w) (console w ++ [m])).

Definition fix_file (filepath : string) : IO bool :=
  try_except
    (content ← read_file filepath;
     let original := content in
     let content := re_sub pattern replacer content in
     if negb (text_eqb content original) then
       write_file filepath content;;
       print (MsgFixed filepath);;
       mret true
     else
       print (MsgNoChange filepath);;
       mret false)
    (fun e => match e with
              | FileNotFoundError => print (MsgNotFound filepath);; mret false
              | OtherError => print (MsgError filepath);; mret false
              end).

(** [sum(fix_file(f) for f in files)], the running total in [acc]. *)
Fixpoint sum_fix_file (acc : nat) (files : list string) : IO nat :=
  match files with
  | [] => mret acc
  | f :: files' => b ← fix_file f; sum_fix_file (acc + Nat.b2n b) files'
  end.

Definition main (files : list string) : IO nat :=
  print MsgStart;;
  fixed ← sum_fix_file 0 files;
  print (MsgTotal fixed);;
  mret fixed.

Definition files : list string :=
  [ "src/components/analytics/shared/ComparisonChart.tsx";
    "src/components/analytics/shared/SummaryCard.tsx";
    "src/components/analytics/features/attendance/AttendanceDetailView.tsx";
    "src/components/analytics/features/fees/FeesDetailView.tsx";
    "src/components/analytics/features/learning/LearningDetailView.tsx";
    "src/components/analytics/features/syllabus/SyllabusProgressDetailView.tsx";
    "src/components/analytics/dashboards/SuperAdminDashboard.tsx";
    "src/components/analytics/dashboards/StudentDashboard.tsx";
    "src/components/analytics/dashboards/AdminDashboard.tsx";
    "src/components/common/Pagination.tsx";
    "src/components/resources/AddResourceModal.tsx";
    "src/components/tasks/StudentTaskCard.tsx";
    "src/components/tasks/TaskFormModal.tsx";
    "src/components/tasks/TaskSubmissionModal.tsx";
    "src/components/tests/CreateTestForm.tsx";
    "src/components/ui/EmptyState.tsx";
    "src/components/ui/ErrorView.tsx";
    "src/components/ui/LoadingView.tsx";
    "src/components/ui/SuccessAnimation.tsx";
    "src/features/fees/PaymentsScreen.tsx";
    "src/features/fees/StudentFeesScreen.tsx" ]%string.

(** Whether a message reports a fixed file. *)
Definition is_fixed (m : message) : bool :=
  match m with MsgFixed _ => true | _ => false end.

(** What [fix_file] does to a file system entry, case by case. *)
Definition outcome (filepath : string) (σ : gmap string file) : message :=
  match σ !! filepath with
  | None => MsgNotFound filepath
  | Some f =>
      if negb (readable f) then MsgError filepath
      else if negb (snd (rewrite (content f))) then MsgNoChange filepath
      else if negb (writable f) then MsgError filepath
      else MsgFixed filepath
  end.

(** A file that [fix_file] reads, changes and writes back. *)
Definition fixable (σ : gmap string file) (filepath : string) : bool :=
  match σ !! filepath with
  | Some f => readable f && snd (rewrite (content f)) && writable f
  | None => false
  end.

Definition written (filepath : string) (σ : gmap string file) : gmap string file :=
  match σ !! filepath with
  | Some f =>
      if readable f && snd (rewrite (content f)) && writable f
      then <[filepath := File (fst (rewrite (content f))) (readable f) true]> σ
      else σ
  | None => σ
  end.

(** The messages of a run over [files], each file judged in the file system
    the files before it left, and the file system after the run. *)
Fixpoint outcomes (files : list string) (σ : gmap string file) : list message :=
  match files with
  | [] => []
  | f :: files' => outcome f σ :: outcomes files' (written f σ)
  end.

Fixpoint final_fs (files : list string) (σ : gmap string file) : gmap string file :=
  match files with
  | [] => σ
  | f :: files' => final_fs files' (written f σ)
  end.

(** ** Scenario texts *)

Definition lines (ls : list string) : text :=
  flat_map (fun l => txt l ++ [nl]) ls.

Definition scenarioA : text :=
  lines [ "export const Foo = ({";
          "  const { colors } = useX();";
          "  const styles = useStyles();";
          "";
          "  name,";
          "  value," ] ++ txt "}) => {".

Definition scenarioA_fixed : text :=
  lines [ "export const Foo = ({";
          "  name,";
          "  value,";
          "}) => {";
          "  const { colors } = useX();";
          "  const styles = useStyles();" ].


(** Parameter lines that are not bare identifiers. *)
Definition loose_params : text :=
  lines [ "export const Foo = ({";
          "  const { colors } = useX();";
          "  const styles = useStyles();";
          "";
          "  name = 1,";
          "  foo bar;" ] ++ txt "}) => {".

Definition loose_params_fixed : text :=
  lines [ "export const Foo = ({";
          "  name = 1,";
          "  foo bar;";
          "}) => {";
          "  const { colors } = useX();";
          "  const styles = useStyles();" ].

(** The header inside a line comment. *)
Definition commented : text := txt "// " ++ scenarioA.
Definition commented_fixed : text := txt "// " ++ scenarioA_fixed.

(** A declaration nested in the parameter lines of another. *)
Definition nested : text :=
  lines [ "export const U = ({";
          "  const { colors } = a;";
          "  const styles = b;";
          "";
          "  export const V = ({";
          "  const { colors } = c;";
          "  const styles = d;";
          "";
          "  name,";
          "}) => {" ].

Definition nested_once : text :=
  lines [ "export const U = ({";
          "  const { colors } = a;";
          "  const styles = b;";
          "";
          "  export const V = ({";
          "  name,";
          "}) => {";
          "  const { colors } = c;";
          "  const styles = d;";
          "" ].

Definition nested_twice : text :=
  lines [ "export const U = ({";
          "  export const V = ({";
          "  name,";
          "}) => {";
          "  const { colors } = a;";
          "  const styles = b;";
          "";
          "  const { colors } = c;";
          "  const styles = d;";
          "" ].

(** A component with no defect. *)
Definition plain_component : text :=
  lines [ "export const Foo = ({ name }) => {";
          "  return null;";
          "};" ].

(** The block of Scenario A and a block with one parameter. *)
Definition scenarioA_block : block :=
  Block (txt "export const Foo = ({")
        (txt "const { colors } = useX();" ++ [nl] ++ txt "  const styles = useStyles();")
        (lines ["  name,"; "  value,"]).

Definition defect_block (name : string) : block :=
  Block (txt ("export const " ++ name ++ " = ({"))
        (txt "const { colors } = useX();" ++ [nl] ++ txt "  const styles = useStyles();")
        (lines ["  name,"]).

(** Two defect blocks, with text before, between and after them. *)
Definition two_blocks_before : text := lines [ "import React from 'react';"; "" ].
Definition two_blocks_between : text := lines [ ""; "  return null;"; "};"; "" ].
Definition two_blocks_after : text := lines [ ""; "  return null;"; "};" ].

Definition two_blocks : text :=
  two_blocks_before ++ block_text (defect_block "Foo") ++ two_blocks_between
  ++ block_text (defect_block "Bar") ++ two_blocks_after.

Definition two_blocks_fixed : text :=
  two_blocks_before ++ block_fixed (defect_block "Foo") ++ two_blocks_between
  ++ block_fixed (defect_block "Bar") ++ two_blocks_after.

(** A file system for the driver: one file with a defect, one without, one
    that cannot be read and one with a defect that cannot be written. *)
Definition sample_fs : gmap string file :=
  <["a.tsx" := File scenarioA true true]>
  (<["b.tsx" := File plain_component true true]>
  (<["c.tsx" := File scenarioA false true]>
  (<["d.tsx" := File scenarioA true false]> ∅))).

Definition sample_files : list string :=
  [ "a.tsx"; "missing.tsx"; "b.tsx"; "c.tsx"; "d.tsx"; "a.tsx" ]%string.

(** ** The defect shape as the specification words it

    The specification describes the shape in five steps.  Two of them are
    narrower than the pattern: the header is a top-level declaration, so it
    begins a line, and every parameter line is a single bare identifier, with
    or without a trailing comma.  The other steps are those of [is_block]. *)

Definition is_digit (a : ascii) : bool := between 48 57 (nat_of_ascii a).

(** An identifier: letters, digits, [_] and [$], not starting with a digit. *)
Definition is_identifier (id : text) : bool :=
  match id with
  | [] => false
  | a :: _ =>
      negb (is_digit a)
      && forallb (fun c => is_word c || bool_decide (c = "$"%char)) id
  end.

Fixpoint strip_spaces (l : text) : text :=
  match l with
  | a :: l' => if bool_decide (a = " "%char) then strip_spaces l' else l
  | [] => []
  end.

(** A line, without its newline, that holds one identifier and at most a
    comma after it, whatever its indentation. *)
Definition spec_param_line (l : text) : bool :=
  let w := strip_spaces l in
  is_identifier w
  || match last w with
     | Some c => bool_decide (c = comma) && is_identifier (removelast w)
     | None => false
     end.

(** The lines of group 3, each ended by its newline. *)
Definition spec_params (g : text) : bool :=
  forallb spec_param_line (removelast (split_lines g)).

(** The text before the header ends a line, or there is none. *)
Definition top_level (pre : text) : bool :=
  match last pre with
  | Some a => bool_decide (a = nl)
  | None => true
  end.

Definition spec_instance (T : text) : Prop :=
  ∃ pre b post, is_block b ∧ T = pre ++ block_text b ++ post
                ∧ top_level pre = true ∧ spec_params (params b) = true.

(** The same, decided by trying each position at which the pattern
    matches. *)
Definition spec_instance_b (T : text) : bool :=
  existsb (fun i =>
             top_level (take i T)
             && match match_here pattern (drop i T) with
                | Some (m, _) => spec_params (group 3 m)
                | None => false
                end)
          (match_positions T).

(** ** Further notions about the scan and the driver *)

(** Spans that start at or after [from], are non-empty, and follow one
    another without overlap. *)
Fixpoint spans_ordered (from : nat) (l : list (nat * nat)) : Prop :=
  match l with
  | [] => True
  | (i, j) :: l' => from <= i ∧ i < j ∧ spans_ordered j l'
  end.

(** A wrapper whose type argument is itself generic. *)
Definition nested_generic : text :=
  lines [ "export const Foo = React.memo<Array<Props>>(({";
          "  const { colors } = useX();";
          "  const styles = useStyles();";
          "";
          "  name," ] ++ txt "}) => {".

(** A block with the [React.memo] wrapper. *)
Definition memo_block : block :=
  Block (txt "export const Foo = React.memo<Props>(({")
        (txt "const { colors } = useX();" ++ [nl] ++ txt "  const styles = useStyles();")
        (lines ["  name,"]).

(** Files on which a second rewrite changes nothing. *)
Definition settles (σ : gmap string file) : Prop :=
  forall p f, σ !! p = Some f -> snd (rewrite (fst (rewrite (content f)))) = false.

(** ** Proof tactics *)

Ltac invc H := inversion H; clear H; subst.

(** Take a derivation apart down to its repeated parts. *)
Ltac inv_matches :=
  repeat match goal with
  | H : Matches (_ ⋅ _) _ _ _ |- _ => invc H
  | H : Matches (Lit _) _ _ _ |- _ => invc H
  | H : Matches (Group _ _) _ _ _ |- _ => invc H
  | H : Matches (Opt _) _ _ _ |- _ => invc H
  end.

(** Equations between texts built from the same pieces. *)
Ltac text_eq :=
  unfold block_text, block_fixed, replacer;
  repeat (progress (simpl; rewrite <- ?app_assoc));
  reflexivity.

(** * Properties *)

(** ** The matcher lists exactly the matches *)

Lemma strip_prefix_app (l s : text) : strip_prefix l (l ++ s) = Some s.
Proof.
  induction l as [|a l IH]; simpl; [reflexivity|].
  rewrite bool_decide_eq_true_2 by reflexivity. exact IH.
Qed.

Lemma strip_prefix_Some (l s s' : text) :
  strip_prefix l s = Some s' -> s = l ++ s'.
Proof.
  revert s. induction l as [|a l IH]; intros [|b s]; simpl; try congruence.
  case_bool_decide; [|congruence]. intros Hs. subst b. f_equal. auto.
Qed.

Lemma plus_loop_sound (r : regex) (body : caps -> text -> list (caps * text)) :
  (forall cs s cs' s', In (cs', s') (body cs s) ->
     exists w, s = w ++ s' ∧ Matches r w cs cs') ->
  forall fuel cs s cs' s', In (cs', s') (plus_loop body fuel cs s) ->
     exists w, s = w ++ s' ∧ Matches (Plus r) w cs cs'.
Proof.
  intros Hbody. induction fuel as [|fuel IH]; simpl; intros cs s cs' s' Hin.
  - contradiction.
  - apply in_flat_map in Hin as [[cs1 s1] [H1 Hin]].
    apply Hbody in H1 as [w1 [-> M1]].
    apply in_app_iff in Hin as [Hin|Hin].
    + apply IH in Hin as [w2 [-> M2]].
      exists (w1 ++ w2). rewrite <- app_assoc. split; [reflexivity|].
      eapply M_Plus_more; eassumption.
    + destruct Hin as [Heq|[]]. inversion Heq; subst.
      exists w1. split; [reflexivity|]. now apply M_Plus_one.
Qed.

Lemma run_sound (r : regex) : forall cs s cs' s',
  In (cs', s') (run r cs s) -> exists w, s = w ++ s' ∧ Matches r w cs cs'.
Proof.
  induction r as [l|c|r1 IH1 r2 IH2|r IH|r IH|i r IH]; cbn [run];
    intros cs s cs' s' Hin.
  - destruct (strip_prefix l s) as [s1|] eqn:E; [|contradiction].
    destruct Hin as [Heq|[]]. inversion Heq; subst.
    apply strip_prefix_Some in E. exists l. split; [assumption|constructor].
  - destruct s as [|a s]; [contradiction|].
    destruct (in_class c a) eqn:E; [|contradiction].
    destruct Hin as [Heq|[]]. inversion Heq; subst.
    exists [a]. split; [reflexivity|now constructor].
  - apply in_flat_map in Hin as [[cs1 s1] [H1 H2]].
    apply IH1 in H1 as [w1 [-> M1]]. apply IH2 in H2 as [w2 [-> M2]].
    exists (w1 ++ w2). rewrite <- app_assoc. split; [reflexivity|].
    econstructor; eassumption.
  - apply in_app_iff in Hin as [Hin|[Heq|[]]].
    + apply IH in Hin as [w [-> Mw]]. exists w. split; [reflexivity|].
      now apply M_Opt_some.
    + inversion Heq; subst. exists []. split; [reflexivity|apply M_Opt_none].
  - eapply plus_loop_sound; eassumption.
  - apply in_map_iff in Hin as [[cs1 s1] [Heq Hin]]. inversion Heq; subst.
    apply IH in Hin as [w [-> Mw]]. exists w. split; [reflexivity|].
    rewrite length_app, Nat.add_sub, take_app_length. now constructor.
Qed.

Lemma Matches_nonempty r w cs cs' :
  Matches r w cs cs' -> nullable r = false -> w ≠ [].
Proof.
  induction 1; simpl; intros Hn; try discriminate.
  - now apply bool_decide_eq_false in Hn.
  - apply andb_false_iff in Hn as [Hn|Hn].
    + intros E. apply app_eq_nil in E as [E _]. now apply IHMatches1.
    + intros E. apply app_eq_nil in E as [_ E]. now apply IHMatches2.
  - auto.
  - intros E. apply app_eq_nil in E as [E _]. now apply IHMatches1.
  - auto.
Qed.

Lemma plus_loop_mono body n m cs s x :
  n <= m -> In x (plus_loop body n cs s) -> In x (plus_loop body m cs s).
Proof.
  revert m cs s. induction n as [|n IH]; intros m cs s Hle; simpl; [contradiction|].
  destruct m as [|m]; [lia|]. simpl. intros Hin.
  apply in_flat_map in Hin as [[cs1 s1] [H1 Hin]].
  apply in_flat_map. exists (cs1, s1). split; [assumption|].
  apply in_app_iff in Hin as [Hin|Hin]; apply in_app_iff; [left|now right].
  apply IH; [lia|assumption].
Qed.

Lemma run_complete r w cs cs' :
  Matches r w cs cs' -> productive r = true ->
  forall s', In (cs', s') (run r cs (w ++ s')).
Proof.
  induction 1 as [l cs|c a cs Hc|r1 r2 w1 w2 cs cs1 cs2 M1 IH1 M2 IH2
                  |r w cs cs' Mw IH|r cs|r w cs cs' Mw IH
                  |r w1 w2 cs cs1 cs2 M1 IH1 M2 IH2|i r w cs cs' Mw IH];
    cbn [run productive]; intros Hp s'.
  - rewrite strip_prefix_app. now left.
  - simpl. rewrite Hc. now left.
  - apply andb_true_iff in Hp as [Hp1 Hp2].
    apply in_flat_map. exists (cs1, w2 ++ s'). rewrite <- app_assoc. split; auto.
  - apply in_app_iff. left. auto.
  - apply in_app_iff. right. now left.
  - apply andb_true_iff in Hp as [_ Hp]. cbn [plus_loop].
    apply in_flat_map. exists (cs', s'). split; [auto|].
    apply in_app_iff. right. now left.
  - pose proof Hp as Hp'. apply andb_true_iff in Hp' as [Hn Hp1].
    apply negb_true_iff in Hn. cbn [plus_loop].
    apply in_flat_map. exists (cs1, w2 ++ s'). rewrite <- app_assoc. split; [auto|].
    apply in_app_iff. left.
    specialize (IH2 Hp s'). cbn [run] in IH2.
    eapply plus_loop_mono; [|exact IH2].
    pose proof (Matches_nonempty _ _ _ _ M1 Hn) as Hne.
    destruct w1; [congruence|]. rewrite !length_app. simpl. lia.
  - apply in_map_iff. exists (cs', s'). split; [|auto].
    rewrite length_app, Nat.add_sub, take_app_length. reflexivity.
Qed.

(** ** The matches of [pattern] are the blocks *)

Lemma in_class_CNot c a : in_class (CNot c) a = true <-> a ≠ c.
Proof.
  simpl. rewrite negb_true_iff. split.
  - intros E. now apply bool_decide_eq_false in E.
  - intros E. now apply bool_decide_eq_false_2.
Qed.

Lemma Matches_Plus_Class_inv c w cs cs' :
  Matches (Plus (Class c)) w cs cs' ->
  cs' = cs ∧ w ≠ [] ∧ Forall (fun a => in_class c a = true) w.
Proof.
  intros M. remember (Plus (Class c)) as r eqn:Er.
  induction M; try discriminate; invc Er.
  - invc M. repeat split; [discriminate|]. repeat constructor. assumption.
  - invc M1. destruct (IHM2 eq_refl) as (-> & Hne & Hall).
    repeat split; [discriminate|]. now constructor.
Qed.

Lemma Matches_Plus_Class c w cs :
  w ≠ [] -> Forall (fun a => in_class c a = true) w ->
  Matches (Plus (Class c)) w cs cs.
Proof.
  induction w as [|a w IH]; intros Hne Hall; [congruence|].
  invc Hall. destruct w as [|b w].
  - apply M_Plus_one. now constructor.
  - change (a :: b :: w) with ([a] ++ b :: w).
    eapply M_Plus_more; [now constructor|]. now apply IH.
Qed.

Lemma is_line_Matches l cs :
  is_line l <-> Matches (Plus (Class (CNot nl))) l cs cs.
Proof.
  split.
  - intros [Hne Hall]. apply Matches_Plus_Class; [assumption|].
    eapply Forall_impl; [exact Hall|]. intros a Ha. now apply in_class_CNot.
  - intros M. apply Matches_Plus_Class_inv in M as (_ & Hne & Hall).
    split; [assumption|]. eapply Forall_impl; [exact Hall|].
    intros a Ha. now apply in_class_CNot.
Qed.

Lemma is_line_app_comma l : is_line l -> is_line (l ++ [comma]).
Proof.
  intros [Hne Hall]. split.
  - destruct l; discriminate.
  - apply Forall_app. split; [assumption|]. repeat constructor. discriminate.
Qed.

Lemma Matches_param_line_inv w cs cs' :
  Matches param_line_re w cs cs' -> cs' = cs ∧ is_param_line w.
Proof.
  intros M. unfold param_line_re in M. inv_matches;
    match goal with H : Matches (Plus _) _ _ _ |- _ =>
      pose proof (Matches_Plus_Class_inv _ _ _ _ H) as (-> & _);
      apply is_line_Matches in H as Hl end;
    (split; [reflexivity|]).
  - eexists. split; [apply is_line_app_comma; eassumption|].
    now rewrite <- !app_assoc.
  - eexists. split; [eassumption|reflexivity].
Qed.

Lemma Matches_param_line p cs : is_param_line p -> Matches param_line_re p cs cs.
Proof.
  intros (l & Hl & ->). unfold param_line_re.
  apply M_Seq with (cs1 := cs); [constructor|].
  apply M_Seq with (cs1 := cs); [now apply is_line_Matches|].
  change [nl] with ([] ++ [nl]).
  apply M_Seq with (cs1 := cs); [apply M_Opt_none|constructor].
Qed.

Lemma Matches_params_inv w cs cs' :
  Matches (Plus param_line_re) w cs cs' -> cs' = cs ∧ is_params w.
Proof.
  intros M. remember (Plus param_line_re) as r eqn:Er.
  induction M; try discriminate; invc Er.
  - apply Matches_param_line_inv in M as [-> Hp]. split; [reflexivity|].
    exists [w]. repeat split; [discriminate|now repeat constructor|].
    simpl. now rewrite app_nil_r.
  - apply Matches_param_line_inv in M1 as [-> Hp].
    destruct (IHM2 eq_refl) as (-> & ps & Hne & Hall & ->).
    split; [reflexivity|]. exists (w1 :: ps).
    repeat split; [discriminate|now constructor].
Qed.

Lemma Matches_params g cs : is_params g -> Matches (Plus param_line_re) g cs cs.
Proof.
  intros (ps & Hne & Hall & ->).
  induction ps as [|p ps IH]; [congruence|]. invc Hall.
  destruct ps as [|q ps].
  - simpl. rewrite app_nil_r. apply M_Plus_one. now apply Matches_param_line.
  - change (concat (p :: q :: ps)) with (p ++ concat (q :: ps)).
    eapply M_Plus_more; [now apply Matches_param_line|].
    apply IH; [discriminate|assumption].
Qed.

Lemma Forall_CNot c (w : text) :
  Forall (fun a => in_class (CNot c) a = true) w <-> Forall (fun a => a ≠ c) w.
Proof. apply Forall_iff. intros a. apply in_class_CNot. Qed.

Lemma Matches_header_inv w cs cs' :
  Matches header_re w cs cs' -> cs' = cs ∧ is_header w.
Proof.
  intros M. unfold header_re in M. inv_matches;
    repeat match goal with H : Matches (Plus _) _ _ _ |- _ =>
      apply Matches_Plus_Class_inv in H as (-> & ? & ?) end;
    (split; [reflexivity|]).
  - match goal with
    | Hn : Forall (fun a => in_class CWord a = true) ?n,
      Hx : Forall (fun a => in_class (CNot gt) a = true) ?x |- _ =>
        exists n, (txt "React.memo<" ++ x ++ txt ">(")
    end.
    split_and!; [assumption|assumption| |reflexivity].
    apply memo_wrapper; [assumption|]. now apply Forall_CNot.
  - match goal with
    | Hn : Forall (fun a => in_class CWord a = true) ?n |- _ => exists n, []
    end.
    split_and!; [assumption|assumption|constructor|reflexivity].
Qed.

Lemma Matches_header g cs : is_header g -> Matches header_re g cs cs.
Proof.
  intros (name & wr & Hne & Hw & Hwr & ->). unfold header_re, kw.
  apply M_Seq with (cs1 := cs); [constructor|].
  apply M_Seq with (cs1 := cs); [now apply Matches_Plus_Class|].
  apply M_Seq with (cs1 := cs); [constructor|].
  apply M_Seq with (cs1 := cs); [|constructor].
  destruct Hwr as [|x Hx Hgt]; [apply M_Opt_none|].
  apply M_Opt_some.
  apply M_Seq with (cs1 := cs); [constructor|].
  apply M_Seq with (cs1 := cs); [|constructor].
  apply Matches_Plus_Class; [assumption|]. now apply Forall_CNot.
Qed.

Lemma Matches_hooks_inv w cs cs' :
  Matches hooks_re w cs cs' -> cs' = cs ∧ is_hooks w.
Proof.
  intros M. unfold hooks_re in M. inv_matches.
  repeat match goal with H : Matches (Plus _) _ _ _ |- _ =>
    pose proof (Matches_Plus_Class_inv _ _ _ _ H) as (-> & _);
    apply is_line_Matches in H end.
  split; [reflexivity|].
  match goal with
  | H1 : is_line ?l1, H2 : is_line ?l2 |- is_hooks (_ ++ ?l1 ++ _ ++ ?l2) =>
      exists l1, l2
  end.
  split_and!; [assumption|assumption|reflexivity].
Qed.

Lemma Matches_hooks g cs : is_hooks g -> Matches hooks_re g cs cs.
Proof.
  intros (l1 & l2 & H1 & H2 & ->). unfold hooks_re.
  apply M_Seq with (cs1 := cs); [constructor|].
  apply M_Seq with (cs1 := cs); [now apply is_line_Matches|].
  apply (M_Seq _ _ (nl :: txt "  const styles") l2 cs cs cs); [constructor|].
  now apply is_line_Matches.
Qed.

Lemma Matches_pattern_inv w cs :
  Matches pattern w [] cs ->
  exists b, is_block b ∧ w = block_text b ∧ cs = block_caps b.
Proof.
  intros M. unfold pattern in M. inv_matches.
  repeat match goal with
  | H : Matches header_re _ _ _ |- _ => apply Matches_header_inv in H as [-> ?]
  | H : Matches hooks_re _ _ _ |- _ => apply Matches_hooks_inv in H as [-> ?]
  | H : Matches (Plus param_line_re) _ _ _ |- _ =>
      apply Matches_params_inv in H as [-> ?]
  end.
  match goal with
  | Hh : is_header ?g1, Hk : is_hooks ?g2, Hp : is_params ?g3 |- _ =>
      exists (Block g1 g2 g3)
  end.
  split_and!; [split_and!; assumption| |reflexivity].
  unfold block_text. simpl. now rewrite <- ?app_assoc.
Qed.

Lemma Matches_pattern b :
  is_block b -> Matches pattern (block_text b) [] (block_caps b).
Proof.
  intros (Hh & Hk & Hp). unfold pattern, block_text, block_caps.
  eapply M_Seq; [apply M_Group, Matches_header, Hh|].
  eapply M_Seq; [constructor|].
  eapply M_Seq; [apply M_Group, Matches_hooks, Hk|].
  eapply M_Seq; [constructor|].
  eapply M_Seq; [apply M_Group, Matches_params, Hp|].
  apply M_Group. constructor.
Qed.

(** ** A block is cut in one way only *)

Lemma span_unique (P : ascii -> Prop) (w w' : text) a a' x x' :
  Forall P w -> Forall P w' -> ¬ P a -> ¬ P a' ->
  w ++ a :: x = w' ++ a' :: x' -> w = w' ∧ a :: x = a' :: x'.
Proof.
  intros Hw. revert w'. induction Hw as [|b w Hb Hw IH]; intros w' Hw' Ha Ha' E.
  - destruct Hw' as [|b' w' Hb' Hw']; [now split|].
    simpl in E. invc E. contradiction.
  - destruct Hw' as [|b' w' Hb' Hw'].
    + simpl in E. invc E. contradiction.
    + simpl in E. invc E. destruct (IH w' Hw' Ha Ha' H1) as [-> E2].
      now split.
Qed.

Lemma is_word_space : is_word " " = false.
Proof. reflexivity. Qed.

Lemma header_unique g g' u u' :
  is_header g -> is_header g' -> g ++ u = g' ++ u' -> g = g' ∧ u = u'.
Proof.
  intros (n & wr & _ & Hn & Hwr & ->) (n' & wr' & _ & Hn' & Hwr' & ->) E.
  rewrite <- ?app_assoc in E. apply app_inv_head in E.
  change (txt " = ") with (" "%char :: txt "= ") in *.
  rewrite <- ?app_assoc in E. simpl in E.
  apply (span_unique (fun a => is_word a = true)) in E as [-> E];
    [|assumption|assumption|rewrite is_word_space; discriminate
     |rewrite is_word_space; discriminate].
  injection E as E.
  destruct Hwr as [|x _ Hx], Hwr' as [|x' _ Hx']; simpl in E.
  - now invc E.
  - discriminate.
  - discriminate.
  - injection E as E. rewrite <- ?app_assoc in E. simpl in E.
    apply (span_unique (fun a => a ≠ gt)) in E as [-> E];
      [|assumption|assumption|tauto|tauto].
    now invc E.
Qed.

Lemma hooks_unique g g' u u' :
  is_hooks g -> is_hooks g' -> g ++ nl :: u = g' ++ nl :: u' -> g = g' ∧ u = u'.
Proof.
  intros (l1 & l2 & [_ H1] & [_ H2] & ->) (l1' & l2' & [_ H1'] & [_ H2'] & ->) E.
  rewrite <- ?app_assoc in E. apply app_inv_head in E.
  rewrite <- ?app_assoc in E. simpl in E.
  apply (span_unique (fun a => a ≠ nl)) in E as [-> E];
    [|assumption|assumption|tauto|tauto].
  injection E as E. rewrite <- ?app_assoc in E. simpl in E.
  apply (span_unique (fun a => a ≠ nl)) in E as [-> E];
    [|assumption|assumption|tauto|tauto].
  now invc E.
Qed.

Lemma param_lines_unique ps ps' u u' :
  Forall is_param_line ps -> Forall is_param_line ps' ->
  concat ps ++ closer ++ u = concat ps' ++ closer ++ u' -> ps = ps' ∧ u = u'.
Proof.
  intros Hps. revert ps'.
  induction Hps as [|p ps (l & [_ Hl] & ->) Hps IH]; intros ps' Hps' E.
  - destruct Hps' as [|p' ps' (l' & _ & ->) _]; simpl in E.
    + now invc E.
    + discriminate.
  - destruct Hps' as [|p' ps' (l' & [_ Hl'] & ->) Hps']; simpl in E.
    + discriminate.
    + injection E as E. rewrite <- ?app_assoc in E. simpl in E.
      apply (span_unique (fun a => a ≠ nl)) in E as [-> E];
        [|assumption|assumption|tauto|tauto].
      injection E as E. destruct (IH ps' Hps' E) as [-> ->]. now split.
Qed.

Lemma block_unique b b' u u' :
  is_block b -> is_block b' ->
  block_text b ++ u = block_text b' ++ u' -> b = b' ∧ u = u'.
Proof.
  destruct b as [g1 g2 g3], b' as [g1' g2' g3'].
  intros (Hh & Hk & Hp) (Hh' & Hk' & Hp'). unfold block_text. simpl in *.
  intros E. rewrite <- ?app_assoc in E.
  apply header_unique in E as [-> E]; [|assumption|assumption].
  simpl in E. injection E as E. rewrite <- ?app_assoc in E. simpl in E.
  apply hooks_unique in E as [-> E]; [|assumption|assumption].
  injection E as E. rewrite <- ?app_assoc in E.
  destruct Hp as (ps & _ & Hps & ->), Hp' as (ps' & _ & Hps' & ->).
  apply param_lines_unique in E as [-> ->]; [|assumption|assumption].
  now split.
Qed.

(** ** What [match_here pattern] returns *)

Lemma productive_pattern : productive pattern = true.
Proof. reflexivity. Qed.

Lemma match_here_Some s m rest :
  match_here pattern s = Some (m, rest) ->
  exists b, is_block b ∧ s = block_text b ++ rest ∧ m = block_caps b.
Proof.
  unfold match_here. intros E.
  assert (Hin : In (m, rest) (run pattern [] s)).
  { destruct (run pattern [] s) as [|x xs]; [discriminate|].
    simpl in E. invc E. now left. }
  apply run_sound in Hin as (w & -> & Mw).
  apply Matches_pattern_inv in Mw as (b & Hb & -> & ->).
  exists b. now split_and!.
Qed.

Lemma match_here_block b rest :
  is_block b -> match_here pattern (block_text b ++ rest) = Some (block_caps b, rest).
Proof.
  intros Hb. unfold match_here.
  pose proof (run_complete _ _ _ _ (Matches_pattern b Hb) productive_pattern rest)
    as Hin.
  destruct (run pattern [] (block_text b ++ rest)) as [|[m r] xs] eqn:E;
    [contradiction|].
  assert (Hm : match_here pattern (block_text b ++ rest) = Some (m, r)).
  { unfold match_here. now rewrite E. }
  apply match_here_Some in Hm as (b' & Hb' & E' & ->).
  apply block_unique in E' as [-> ->]; [|assumption|assumption].
  reflexivity.
Qed.

(** ** The scan of [re.sub] *)

Lemma replacer_block b : replacer (block_caps b) = block_fixed b.
Proof. reflexivity. Qed.

Lemma length_block_fixed b : length (block_fixed b) = length (block_text b).
Proof.
  unfold block_fixed, block_text. rewrite !length_app. simpl.
  rewrite ?length_app. simpl. lia.
Qed.

Lemma length_block_text_pos b : 0 < length (block_text b).
Proof.
  unfold block_text. rewrite !length_app. simpl. lia.
Qed.

Lemma match_here_shorter s m rest :
  match_here pattern s = Some (m, rest) -> length rest < length s.
Proof.
  intros E. apply match_here_Some in E as (b & _ & -> & _).
  rewrite length_app. pose proof (length_block_text_pos b). lia.
Qed.

(** More fuel than the text is long changes nothing. *)
Lemma sub_loop_fuel n m s :
  length s < n -> length s < m ->
  sub_loop n pattern replacer s = sub_loop m pattern replacer s.
Proof.
  revert m s. induction n as [|n IH]; intros m s Hn Hm; [lia|].
  destruct m as [|m]; [lia|]. simpl.
  destruct (match_here pattern s) as [[c rest]|] eqn:E.
  - apply match_here_shorter in E. f_equal. apply IH; lia.
  - destruct s as [|a s]; [reflexivity|]. simpl in *. f_equal. apply IH; lia.
Qed.

Lemma sub_skip a s :
  match_here pattern (a :: s) = None -> sub (a :: s) = a :: sub s.
Proof.
  intros E. unfold re_sub. cbn [sub_loop length]. now rewrite E.
Qed.

Lemma sub_match s m rest :
  match_here pattern s = Some (m, rest) -> sub s = replacer m ++ sub rest.
Proof.
  intros E. unfold re_sub.
  assert (E1 : sub_loop (S (length s)) pattern replacer s
               = replacer m ++ sub_loop (length s) pattern replacer rest)
    by (cbn [sub_loop]; now rewrite E).
  rewrite E1. f_equal.
  apply match_here_shorter in E. apply sub_loop_fuel; lia.
Qed.

Lemma sub_block b rest :
  is_block b -> sub (block_text b ++ rest) = block_fixed b ++ sub rest.
Proof.
  intros Hb. erewrite sub_match by now apply match_here_block.
  now rewrite replacer_block.
Qed.

(** Induction along the scan: the text is empty, or starts with a character
    at which nothing matches, or starts with a block. *)
Lemma scan_ind (P : text -> Prop) :
  P [] ->
  (forall a s, match_here pattern (a :: s) = None -> P s -> P (a :: s)) ->
  (forall b rest, is_block b -> P rest -> P (block_text b ++ rest)) ->
  forall s, P s.
Proof.
  intros Hnil Hskip Hblock s.
  remember (length s) as n eqn:En. revert s En.
  induction n as [n IH] using lt_wf_ind. intros s ->.
  destruct (match_here pattern s) as [[m rest]|] eqn:E.
  - pose proof (match_here_shorter _ _ _ E) as Hlt.
    apply match_here_Some in E as (b & Hb & -> & _).
    apply Hblock; [assumption|]. eapply IH; [exact Hlt|reflexivity].
  - destruct s as [|a s]; [assumption|].
    apply Hskip; [assumption|]. eapply IH; [|reflexivity]. simpl. lia.
Qed.

Lemma length_sub s : length (sub s) = length s.
Proof.
  induction s as [|a s E IH|b rest Hb IH] using scan_ind.
  - reflexivity.
  - rewrite sub_skip by assumption. simpl. now rewrite IH.
  - rewrite sub_block by assumption.
    rewrite !length_app, IH, length_block_fixed. reflexivity.
Qed.

Lemma block_fixed_neq b u u' :
  length u = length u' -> block_fixed b ++ u ≠ block_text b ++ u'.
Proof.
  intros Hlen E.
  apply app_inj_1 in E as [E _]; [|apply length_block_fixed].
  unfold block_fixed, block_text in E.
  apply (f_equal (@rev ascii)) in E.
  rewrite !rev_app_distr in E. simpl in E. discriminate.
Qed.

(** A text is left as it is exactly when the pattern matches nowhere. *)
Lemma sub_same_iff s :
  sub s = s <-> forall i, match_here pattern (drop i s) = None.
Proof.
  induction s as [|a s E IH|b rest Hb IH] using scan_ind.
  - split; [|reflexivity]. intros _ i. now rewrite drop_nil.
  - rewrite sub_skip by assumption. split.
    + intros Es. injection Es as Es. intros [|i]; [assumption|].
      simpl. now apply IH.
    + intros Hi. f_equal. apply IH. intros i. apply (Hi (S i)).
  - rewrite sub_block by assumption. split.
    + intros Es. exfalso. revert Es. apply block_fixed_neq, length_sub.
    + intros Hi. specialize (Hi 0). rewrite drop_0 in Hi.
      rewrite match_here_block in Hi by assumption. discriminate.
Qed.

Lemma has_instance_iff T :
  has_instance T <-> exists i, is_Some (match_here pattern (drop i T)).
Proof.
  split.
  - intros (pre & b & post & Hb & ->). exists (length pre).
    rewrite drop_app_length, match_here_block by assumption. eauto.
  - intros (i & [m rest] & E). apply match_here_Some in E as (b & Hb & E & _).
    exists (take i T), b, rest. split; [assumption|].
    now rewrite <- E, take_drop.
Qed.

Lemma rewrite_no_instance T : ¬ has_instance T -> rewrite T = (T, false).
Proof.
  intros Hno. unfold rewrite.
  assert (E : sub T = T).
  { apply sub_same_iff. intros i.
    destruct (match_here pattern (drop i T)) eqn:Ei; [|reflexivity].
    exfalso. apply Hno, has_instance_iff. exists i. rewrite Ei. eauto. }
  rewrite E. unfold text_eqb. now rewrite bool_decide_eq_true_2.
Qed.

Lemma sub_changed s :
  sub s ≠ s -> exists i, is_Some (match_here pattern (drop i s)).
Proof.
  induction s as [|a s E IH|b rest Hb IH] using scan_ind.
  - intros H. now contradiction H.
  - rewrite sub_skip by assumption. intros H.
    destruct IH as [i Hi]; [congruence|]. now exists (S i).
  - intros _. exists 0. rewrite drop_0, match_here_block by assumption. eauto.
Qed.

Lemma rewrite_changed_iff T : snd (rewrite T) = true <-> has_instance T.
Proof.
  unfold rewrite, text_eqb. simpl. rewrite negb_true_iff, has_instance_iff.
  rewrite bool_decide_eq_false. split.
  - apply sub_changed.
  - intros (i & [x Hx]) Hall.
    apply sub_same_iff with (i := i) in Hall. rewrite Hall in Hx. discriminate.
Qed.

(** ** The scan leaves a prefix with no match alone *)

Lemma sub_skip_prefix pre s :
  (forall j, j < length pre -> match_here pattern (drop j (pre ++ s)) = None) ->
  sub (pre ++ s) = pre ++ sub s.
Proof.
  induction pre as [|a pre IH]; intros Hno; [reflexivity|].
  simpl. rewrite sub_skip.
  - f_equal. apply IH. intros j Hj. apply (Hno (S j)). simpl. lia.
  - apply (Hno 0). simpl. lia.
Qed.

Lemma match_positions_spec T i :
  In i (match_positions T) <-> is_Some (match_here pattern (drop i T)).
Proof.
  unfold match_positions. rewrite <- list_elem_of_In, list_elem_of_filter.
  rewrite list_elem_of_In, in_seq. split; [tauto|].
  intros Hs. split; [assumption|]. split; [lia|].
  destruct (le_lt_dec i (length T)) as [Hle|Hgt]; [simpl; lia|].
  rewrite drop_ge in Hs by lia. destruct Hs as [x Hx]. discriminate.
Qed.

Lemma no_positions_no_instance T : match_positions T = [] -> ¬ has_instance T.
Proof.
  intros E Hi. apply has_instance_iff in Hi as [i Hi].
  apply match_positions_spec in Hi. rewrite E in Hi. contradiction.
Qed.

(** ** The spans of the matches *)

Lemma spans_loop_fuel n m pos s :
  length s < n -> length s < m ->
  spans_loop n pos pattern s = spans_loop m pos pattern s.
Proof.
  revert m pos s. induction n as [|n IH]; intros m pos s Hn Hm; [lia|].
  destruct m as [|m]; [lia|]. simpl.
  destruct (match_here pattern s) as [[c rest]|] eqn:E.
  - apply match_here_shorter in E. f_equal. apply IH; lia.
  - destruct s as [|a s]; [reflexivity|]. simpl in *. apply IH; lia.
Qed.

Lemma spans_skip pos a s :
  match_here pattern (a :: s) = None -> spans_from pos (a :: s) = spans_from (S pos) s.
Proof. intros E. unfold spans_from. cbn [spans_loop length]. now rewrite E. Qed.

Lemma spans_block pos b rest :
  is_block b ->
  spans_from pos (block_text b ++ rest)
  = (pos, pos + length (block_text b))
      :: spans_from (pos + length (block_text b)) rest.
Proof.
  intros Hb.
  assert (E : spans_from pos (block_text b ++ rest)
              = (pos, pos + length (block_text b))
                  :: spans_loop (length (block_text b ++ rest))
                       (pos + length (block_text b)) pattern rest).
  { unfold spans_from. cbn [spans_loop]. rewrite match_here_block by assumption.
    rewrite length_app, Nat.add_sub. reflexivity. }
  rewrite E. f_equal. pose proof (length_block_text_pos b).
  unfold spans_from. apply spans_loop_fuel; rewrite ?length_app; lia.
Qed.

Lemma sub_frame s : forall pos k,
  pos <= k ->
  (forall i j, In (i, j) (spans_from pos s) -> k < i ∨ j <= k) ->
  sub s !! (k - pos) = s !! (k - pos).
Proof.
  induction s as [|a s E IH|b rest Hb IH] using scan_ind; intros pos k Hk Hout.
  - reflexivity.
  - rewrite sub_skip by assumption. rewrite spans_skip in Hout by assumption.
    destruct (decide (k = pos)) as [->|Hne].
    + now rewrite Nat.sub_diag.
    + replace (k - pos) with (S (k - S pos)) by lia. simpl.
      apply IH; [lia|assumption].
  - rewrite sub_block by assumption. rewrite spans_block in Hout by assumption.
    assert (Hge : pos + length (block_text b) <= k).
    { destruct (Hout pos (pos + length (block_text b)) (or_introl eq_refl));
        [lia|assumption]. }
    rewrite !lookup_app_r by (rewrite ?length_block_fixed; lia).
    rewrite length_block_fixed.
    replace (k - pos - length (block_text b))
      with (k - (pos + length (block_text b))) by lia.
    apply IH; [lia|]. intros i j Hin. apply Hout. now right.
Qed.

Lemma spans_are_blocks s : forall pos i j,
  In (i, j) (spans_from pos s) ->
  pos <= i ∧ exists b, is_block b ∧ j = i + length (block_text b)
                       ∧ take (j - i) (drop (i - pos) s) = block_text b.
Proof.
  induction s as [|a s E IH|b rest Hb IH] using scan_ind; intros pos i j Hin.
  - contradiction.
  - rewrite spans_skip in Hin by assumption.
    apply IH in Hin as (Hle & b & Hb & -> & Et). split; [lia|].
    exists b. split_and!; [assumption|reflexivity|].
    replace (i - pos) with (S (i - S pos)) by lia. exact Et.
  - rewrite spans_block in Hin by assumption. destruct Hin as [Heq|Hin].
    + invc Heq. split; [lia|]. exists b. split_and!; [assumption|reflexivity|].
      rewrite Nat.sub_diag, drop_0, Nat.add_comm, Nat.add_sub.
      apply take_app_length.
    + apply IH in Hin as (Hle & b' & Hb' & -> & Et). split; [lia|].
      exists b'. split_and!; [assumption|reflexivity|].
      replace (i - pos) with (length (block_text b) + (i - (pos + length (block_text b))))
        by lia.
      now rewrite <- drop_drop, drop_app_length.
Qed.

(** ** The result of [rewrite] *)

Lemma rewrite_eq T out :
  sub T = out -> has_instance T -> rewrite T = (out, true).
Proof.
  intros E Hi. apply rewrite_changed_iff in Hi.
  unfold rewrite in *. simpl in Hi. now rewrite Hi, E.
Qed.

Lemma match_here_groups s m rest :
  match_here pattern s = Some (m, rest) ->
  is_block (Block (group 1 m) (group 2 m) (group 3 m))
  ∧ m = block_caps (Block (group 1 m) (group 2 m) (group 3 m))
  ∧ s = block_text (Block (group 1 m) (group 2 m) (group 3 m)) ++ rest.
Proof.
  intros E. apply match_here_Some in E as ([g1 g2 g3] & Hb & -> & ->).
  now split_and!.
Qed.

Lemma match_here_outside T i :
  ¬ In i (match_positions T) -> match_here pattern (drop i T) = None.
Proof.
  intros Hn. destruct (match_here pattern (drop i T)) eqn:E; [|reflexivity].
  exfalso. apply Hn, match_positions_spec. rewrite E. eauto.
Qed.

Lemma spans_fixed s : forall pos i j,
  In (i, j) (spans_from pos s) ->
  exists b, is_block b ∧ take (j - i) (drop (i - pos) s) = block_text b
            ∧ take (j - i) (drop (i - pos) (sub s)) = block_fixed b.
Proof.
  induction s as [|a s E IH|b rest Hb IH] using scan_ind; intros pos i j Hin.
  - contradiction.
  - pose proof (spans_are_blocks _ _ _ _ Hin) as [Hle _].
    rewrite spans_skip in Hin by assumption. rewrite sub_skip by assumption.
    pose proof (spans_are_blocks _ _ _ _ Hin) as [Hle' _].
    apply IH in Hin as (b & Hb & Et & Ef).
    exists b. replace (i - pos) with (S (i - S pos)) by lia. now split_and!.
  - rewrite spans_block in Hin by assumption. rewrite sub_block by assumption.
    destruct Hin as [Heq|Hin].
    + invc Heq. exists b. rewrite Nat.sub_diag, !drop_0, Nat.add_comm, Nat.add_sub.
      split_and!; [assumption|apply take_app_length|].
      rewrite <- length_block_fixed. apply take_app_length.
    + pose proof (spans_are_blocks _ _ _ _ Hin) as [Hle _].
      apply IH in Hin as (b' & Hb' & Et & Ef). exists b'.
      replace (i - pos)
        with (length (block_text b) + (i - (pos + length (block_text b)))) by lia.
      rewrite <- !drop_drop, drop_app_length.
      rewrite <- length_block_fixed, drop_app_length.
      rewrite length_block_fixed. now split_and!.
Qed.

(** ** Occurrences of the header keyword *)

Lemma occurrences_spec (k T : text) i :
  In i (occurrences k T) <-> i <= length T ∧ exists y, drop i T = k ++ y.
Proof.
  unfold occurrences. rewrite <- list_elem_of_In, list_elem_of_filter.
  rewrite list_elem_of_In, in_seq. split.
  - intros [[y Hy] Hi]. split; [simpl in Hi; lia|].
    exists y. now apply strip_prefix_Some.
  - intros [Hi [y Hy]]. split; [|simpl; lia].
    rewrite Hy, strip_prefix_app. eauto.
Qed.

Lemma occurrence_at (k x y : text) : In (length x) (occurrences k (x ++ k ++ y)).
Proof.
  apply occurrences_spec. split; [rewrite length_app; lia|].
  exists y. now rewrite drop_app_length.
Qed.

Lemma at_most_one_occurrence (k T : text) i j :
  length (occurrences k T) <= 1 ->
  In i (occurrences k T) -> In j (occurrences k T) -> i = j.
Proof.
  destruct (occurrences k T) as [|a [|b l]]; simpl; intros Hl Hi Hj.
  - contradiction.
  - destruct Hi as [<-|[]], Hj as [<-|[]]. reflexivity.
  - lia.
Qed.

Lemma block_text_kw b : is_block b -> exists z, block_text b = kw ++ z.
Proof.
  intros ((n & wr & _ & _ & _ & E) & _ & _). unfold block_text. rewrite E.
  eexists. rewrite <- !app_assoc. reflexivity.
Qed.

Lemma match_is_occurrence T i :
  is_Some (match_here pattern (drop i T)) -> In i (occurrences kw T).
Proof.
  intros [[m rest] E]. apply match_here_Some in E as (b & Hb & E & _).
  destruct (block_text_kw b Hb) as [z Ez]. apply occurrences_spec. split.
  - destruct (le_lt_dec i (length T)) as [Hle|Hgt]; [assumption|].
    rewrite drop_ge, Ez in E by lia. discriminate.
  - exists (z ++ rest). now rewrite E, Ez, <- app_assoc.
Qed.

(** A keyword with no newline in it lies on one side of a newline. *)
Lemma occurrence_beside_newline (k X Y x y : text) :
  k ≠ [] -> Forall (fun a => a ≠ nl) k ->
  X ++ nl :: Y = x ++ k ++ y ->
  (exists y1, X = x ++ k ++ y1)
  ∨ (exists x1, Y = x1 ++ k ++ y ∧ x = X ++ nl :: x1).
Proof.
  intros Hne Hk E. apply app_eq_app in E as [l [[E1 E2]|[E1 E2]]].
  - symmetry in E2. apply app_eq_app in E2 as [l2 [[E3 E4]|[E3 E4]]].
    + left. exists l2. now rewrite E1, E3.
    + destruct l2 as [|c l2].
      * left. exists []. rewrite app_nil_r in *. now subst.
      * simpl in E4. invc E4. apply Forall_app in Hk as [_ Hk]. invc Hk.
        congruence.
  - destruct l as [|c l].
    + simpl in E2. destruct k as [|c k]; [congruence|].
      simpl in E2. invc E2. invc Hk. congruence.
    + simpl in E2. invc E2. right. now exists l.
Qed.

Lemma kw_line : kw ≠ [] ∧ Forall (fun a => a ≠ nl) kw.
Proof. split; [discriminate|]. vm_compute. repeat constructor; discriminate. Qed.

Lemma params_end_newline g : is_params g -> exists g', g = g' ++ [nl].
Proof.
  intros (ps & Hne & Hps & ->).
  induction Hps as [|p ps (l & _ & ->) Hps IH]; [congruence|].
  destruct ps as [|q ps].
  - exists (txt "  " ++ l). simpl. now rewrite app_nil_r.
  - destruct IH as [g' Eg]; [discriminate|].
    exists ((txt "  " ++ l ++ [nl]) ++ g').
    change (concat ((txt "  " ++ l ++ [nl]) :: q :: ps))
      with ((txt "  " ++ l ++ [nl]) ++ concat (q :: ps)).
    now rewrite Eg, <- ?app_assoc.
Qed.

(** The corrected text of a block is not the start of a block: after the
    header come the parameter lines and the closer, and no empty line follows
    the first two of them. *)
Lemma block_fixed_not_block b b' u u' :
  is_block b -> is_block b' -> block_fixed b ++ u ≠ block_text b' ++ u'.
Proof.
  destruct b as [g1 g2 g3], b' as [g1' g2' g3'].
  intros (Hh & _ & Hp) (Hh' & Hk' & _). unfold block_fixed, block_text.
  simpl in *. intros E. rewrite <- !app_assoc in E.
  apply header_unique in E as [-> E]; [|assumption|assumption].
  destruct Hp as (ps & Hne & Hps & ->).
  destruct Hk' as (l1 & l2 & [_ H1] & [_ H2] & ->).
  destruct Hps as [|p ps (l & [_ Hl] & ->) Hps]; [congruence|].
  simpl in E. injection E as E. rewrite <- ?app_assoc in E. simpl in E.
  rewrite <- ?app_assoc in E.
  apply (span_unique (fun a => a ≠ nl) l (txt "const { colors" ++ l1) nl nl)
    in E as [_ E];
    [|assumption
     |apply Forall_app; split; [vm_compute; repeat constructor; discriminate|assumption]
     |tauto|tauto].
  injection E as E.
  destruct Hps as [|q ps (l' & [_ Hl'] & ->) Hps]; simpl in E; [discriminate|].
  injection E as E. rewrite <- ?app_assoc in E. simpl in E.
  apply (span_unique (fun a => a ≠ nl) l' (txt "const styles" ++ l2) nl nl)
    in E as [_ E];
    [|assumption
     |apply Forall_app; split; [vm_compute; repeat constructor; discriminate|assumption]
     |tauto|tauto].
  injection E as E.
  destruct Hps as [|q' ps (l'' & _ & ->) Hps]; simpl in E; discriminate.
Qed.

(** Where an instance can sit in a text whose first block was corrected:
    its keyword occurred in the input before the end of that block, at
    another place than the start of the block, or the instance lies in the
    text after the block. *)
Lemma instance_after_fix pre b post x b' y :
  is_block b -> is_block b' ->
  pre ++ block_fixed b ++ post = x ++ block_text b' ++ y ->
  (exists X Y, pre ++ block_text b = X ++ kw ++ Y ∧ length X ≠ length pre)
  ∨ (exists x', post = x' ++ block_text b' ++ y).
Proof.
  intros Hb Hb' E.
  destruct kw_line as [Kne Kline].
  destruct (block_text_kw b' Hb') as [z' Ez'].
  destruct (decide (x = pre)) as [->|Hx].
  { apply app_inv_head in E. now apply block_fixed_not_block in E. }
  destruct b as [g1 g2 g3]. destruct Hb as (_ & _ & Hp).
  destruct (params_end_newline _ Hp) as [g3' Eg]. simpl in Eg. subst g3.
  clear Hp.
  assert (E1 : (pre ++ g1) ++ nl :: g3' ++ nl :: closer
                 ++ nl :: (txt "  " ++ g2) ++ nl :: post
               = x ++ kw ++ z' ++ y).
  { transitivity (pre ++ block_fixed (Block g1 g2 (g3' ++ [nl])) ++ post);
      [text_eq|]. rewrite E, Ez'. text_eq. }
  apply occurrence_beside_newline in E1 as [[y1 E1]|[x1 [E1 Ex1]]]; try assumption.
  { (* in the header, or before it *)
    left. exists x, (y1 ++ (nl :: txt "  ") ++ g2 ++ [nl; nl] ++ (g3' ++ [nl]) ++ closer).
    split.
    - transitivity ((pre ++ g1) ++ (nl :: txt "  ") ++ g2 ++ [nl; nl]
                      ++ (g3' ++ [nl]) ++ closer); [text_eq|].
      rewrite E1. text_eq.
    - intros Hl. apply Hx.
      apply app_inj_1 in E1 as [E1 _]; [now symmetry|now symmetry]. }
  apply occurrence_beside_newline in E1 as [[y1 E1]|[x2 [E1 Ex2]]]; try assumption.
  { (* in the parameter lines *)
    left. exists (pre ++ g1 ++ (nl :: txt "  ") ++ g2 ++ [nl; nl] ++ x1),
                 (y1 ++ [nl] ++ closer).
    split; [rewrite E1; text_eq|]. rewrite !length_app. simpl. lia. }
  apply occurrence_beside_newline in E1 as [[y1 E1]|[x3 [E1 Ex3]]]; try assumption.
  { (* in the closer *)
    apply (f_equal length) in E1. rewrite !length_app in E1. simpl in E1. lia. }
  apply occurrence_beside_newline in E1 as [[y1 E1]|[x4 [E1 Ex4]]]; try assumption.
  { (* in the hook lines *)
    left. exists (pre ++ g1 ++ [nl] ++ x3),
                 (y1 ++ [nl; nl] ++ (g3' ++ [nl]) ++ closer).
    split.
    - transitivity (pre ++ g1 ++ [nl] ++ (txt "  " ++ g2) ++ [nl; nl]
                      ++ (g3' ++ [nl]) ++ closer); [text_eq|].
      rewrite E1. text_eq.
    - rewrite !length_app. simpl. lia. }
  (* after the block *)
  right. exists x4. now rewrite Ez', <- app_assoc.
Qed.

(** The first block of a text, if it has one. *)
Lemma first_block s :
  (forall i, match_here pattern (drop i s) = None)
  ∨ (exists pre b post,
       s = pre ++ block_text b ++ post ∧ is_block b
       ∧ forall j, j < length pre -> match_here pattern (drop j s) = None).
Proof.
  induction s as [|a s E IH|b rest Hb IH] using scan_ind.
  - left. intros i. now rewrite drop_nil.
  - destruct IH as [IH|(pre & b & post & -> & Hb & Hno)].
    + left. intros [|i]; [assumption|apply IH].
    + right. exists (a :: pre), b, post. split_and!; [reflexivity|assumption|].
      intros [|j] Hj; [assumption|]. apply Hno. simpl in Hj. lia.
  - right. exists [], b, rest. split_and!; [reflexivity|assumption|].
    intros j Hj. simpl in Hj. lia.
Qed.

Lemma no_match_no_instance s :
  (forall i, match_here pattern (drop i s) = None) -> ¬ has_instance s.
Proof.
  intros Hno Hi. apply has_instance_iff in Hi as (i & x & Hx).
  rewrite Hno in Hx. discriminate.
Qed.

Lemma idempotent_when_one_occurrence (T : text) :
  length (occurrences kw T) <= 1 ->
  rewrite (fst (rewrite T)) = (fst (rewrite T), false).
Proof.
  intros Hocc. simpl. apply rewrite_no_instance.
  destruct (first_block T) as [Hno|(pre & b & post & ET & Hb & Hno)].
  - apply sub_same_iff in Hno as Es. rewrite Es. now apply no_match_no_instance.
  - destruct (block_text_kw b Hb) as [z Ez].
    assert (Hat : forall X Y, T = X ++ kw ++ Y -> length X = length pre).
    { intros X Y E0. eapply at_most_one_occurrence; [exact Hocc| |].
      - rewrite E0. apply occurrence_at.
      - rewrite ET, Ez, <- app_assoc. apply occurrence_at. }
    assert (Hpost : ¬ has_instance post).
    { intros (x' & b' & y' & Hb' & Ep).
      destruct (block_text_kw b' Hb') as [z' Ez'].
      pose proof (length_block_text_pos b).
      specialize (Hat (pre ++ block_text b ++ x') (z' ++ y')).
      rewrite !length_app in Hat.
      enough (length pre + (length (block_text b) + length x') = length pre) by lia.
      apply Hat. rewrite ET, Ep, Ez'. now rewrite <- !app_assoc. }
    assert (Es : sub T = pre ++ block_fixed b ++ post).
    { rewrite ET at 1. rewrite sub_skip_prefix by now rewrite <- ET.
      rewrite sub_block by assumption. do 2 f_equal.
      apply sub_same_iff. intros j.
      destruct (match_here pattern (drop j post)) eqn:Ej; [|reflexivity].
      exfalso. apply Hpost, has_instance_iff. exists j. rewrite Ej. eauto. }
    rewrite Es. intros (x & b' & y & Hb' & E).
    destruct (instance_after_fix _ _ _ _ _ _ Hb Hb' E)
      as [(X & Y & E' & Hl)|(x' & E')]; clear E; rename E' into E.
    + apply Hl, (Hat X (Y ++ post)). rewrite ET, app_assoc, E.
      now rewrite <- !app_assoc.
    + apply Hpost. now exists x', b', y.
Qed.

(** ** Texts whose every keyword starts a rewritten block *)

Lemma spans_skip_prefix pre s pos :
  (forall j, j < length pre -> match_here pattern (drop j (pre ++ s)) = None) ->
  spans_from pos (pre ++ s) = spans_from (pos + length pre) s.
Proof.
  revert pos. induction pre as [|a pre IH]; intros pos Hno.
  - simpl. now rewrite Nat.add_0_r.
  - simpl. rewrite spans_skip by (apply (Hno 0); simpl; lia).
    rewrite IH; [f_equal; lia|].
    intros j Hj. apply (Hno (S j)). simpl. lia.
Qed.

Lemma span_starts_from s pos i :
  In i (map fst (spans_from pos s)) -> pos <= i.
Proof.
  intros Hin. apply in_map_iff in Hin as ([i' j] & <- & Hin).
  now apply spans_are_blocks in Hin as [Hle _].
Qed.

Lemma fixed_no_instance_when_all_start_blocks (T : text) : forall pos,
  (forall i, In i (occurrences kw T) ->
             In (pos + i) (map fst (spans_from pos T))) ->
  ¬ has_instance (sub T).
Proof.
  remember (length T) as n eqn:En. revert T En.
  induction n as [n IH] using lt_wf_ind. intros T -> pos Hall.
  destruct (first_block T) as [Hno|(pre & b & post & ET & Hb & Hno)].
  - apply sub_same_iff in Hno as Es. rewrite Es. now apply no_match_no_instance.
  - pose proof (length_block_text_pos b) as Lb.
    assert (Espans : spans_from pos T
              = (pos + length pre, pos + length pre + length (block_text b))
                  :: spans_from (pos + length pre + length (block_text b)) post).
    { rewrite ET at 1. rewrite spans_skip_prefix by now rewrite <- ET.
      now rewrite spans_block. }
    assert (Hpost : ¬ has_instance (sub post)).
    { eapply (IH (length post)); [|reflexivity|].
      - rewrite ET, !length_app. lia.
      - intros i Hi. apply occurrences_spec in Hi as [Hi [y Hy]].
        specialize (Hall (length pre + length (block_text b) + i)).
        rewrite Espans in Hall. simpl in Hall. destruct Hall as [Hall|Hall].
        + apply occurrences_spec. split; [rewrite ET, !length_app; lia|].
          exists y. now rewrite ET, <- !drop_drop, !drop_app_length.
        + lia.
        + now replace (pos + length pre + length (block_text b) + i)
            with (pos + (length pre + length (block_text b) + i)) by lia. }
    assert (Es : sub T = pre ++ block_fixed b ++ sub post).
    { rewrite ET at 1. rewrite sub_skip_prefix by now rewrite <- ET.
      now rewrite sub_block. }
    rewrite Es. intros (x & b' & y & Hb' & E).
    destruct (instance_after_fix _ _ _ _ _ _ Hb Hb' E)
      as [(X & Y & E' & Hl)|(x' & E')]; clear E; rename E' into E.
    + specialize (Hall (length X)). rewrite Espans in Hall. simpl in Hall.
      destruct Hall as [Hall|Hall].
      * rewrite ET, app_assoc, E, <- !app_assoc. apply occurrence_at.
      * lia.
      * apply span_starts_from in Hall.
        apply (f_equal length) in E. rewrite !length_app in E.
        assert (0 < length kw) by (vm_compute; lia). lia.
    + apply Hpost. now exists x', b', y.
Qed.

Lemma is_block_by_match b :
  match_here pattern (block_text b) = Some (block_caps b, []) -> is_block b.
Proof.
  intros E. apply match_here_groups in E as (Hb & _ & _). now destruct b.
Qed.

(** ** The driver *)

Lemma fix_file_spec filepath w :
  fix_file filepath w
  = (inl (is_fixed (outcome filepath (fs w))),
     World (written filepath (fs w)) (console w ++ [outcome filepath (fs w)])).
Proof.
  destruct w as [σ out].
  unfold fix_file, try_except, read_file, outcome, written, mbind, IO_bind; simpl.
  destruct (σ !! filepath) as [[c r wr]|] eqn:El; simpl; [|reflexivity].
  destruct r; simpl; [|reflexivity].
  destruct (text_eqb (re_sub pattern replacer c) c) eqn:Ec; simpl; [reflexivity|].
  unfold write_file, print; simpl. rewrite El. simpl.
  destruct wr; reflexivity.
Qed.

Lemma sum_fix_file_spec files : forall acc w,
  sum_fix_file acc files w
  = (inl (acc + length (List.filter is_fixed (outcomes files (fs w)))),
     World (final_fs files (fs w)) (console w ++ outcomes files (fs w))).
Proof.
  induction files as [|f files IH]; intros acc [σ out].
  - simpl. unfold mret, IO_ret. now rewrite Nat.add_0_r, app_nil_r.
  - cbn [sum_fix_file outcomes final_fs]. unfold mbind, IO_bind at 1.
    rewrite fix_file_spec. cbn [fs console]. rewrite IH. cbn [fs console].
    rewrite <- app_assoc. simpl.
    destruct (outcome f σ); simpl; f_equal; f_equal; lia.
Qed.

Lemma length_outcomes files : forall σ, length (outcomes files σ) = length files.
Proof. induction files as [|f files IH]; intros σ; simpl; [|rewrite IH]; reflexivity. Qed.

Lemma outcome_missing filepath (σ : gmap string file) :
  σ !! filepath = None -> outcome filepath σ = MsgNotFound filepath.
Proof. intros E. unfold outcome. now rewrite E. Qed.

Lemma outcome_fixed_iff filepath (σ : gmap string file) :
  outcome filepath σ = MsgFixed filepath
  <-> exists f, σ !! filepath = Some f ∧ readable f = true
                ∧ snd (rewrite (content f)) = true ∧ writable f = true.
Proof.
  unfold outcome. destruct (σ !! filepath) as [f|].
  - destruct (readable f) eqn:Er, (snd (rewrite (content f))) eqn:Ec,
      (writable f) eqn:Ew; cbn [negb]; split; intros H; try discriminate;
      try (destruct H as (f' & Ef & Hr & Hc & Hw); injection Ef as <-; congruence).
    now exists f.
  - split; [discriminate|]. intros (f & Ef & _). discriminate.
Qed.

Lemma written_fixed filepath (σ : gmap string file) f :
  σ !! filepath = Some f -> readable f = true ->
  snd (rewrite (content f)) = true -> writable f = true ->
  written filepath σ = <[filepath := File (fst (rewrite (content f))) true true]> σ.
Proof.
  intros E Er Ec Ew. unfold written. now rewrite E, Er, Ec, Ew.
Qed.

Lemma written_not_fixed filepath (σ : gmap string file) :
  outcome filepath σ ≠ MsgFixed filepath -> written filepath σ = σ.
Proof.
  unfold outcome, written. destruct (σ !! filepath) as [f|]; [|reflexivity].
  destruct (readable f), (snd (rewrite (content f))), (writable f); simpl;
    congruence.
Qed.

Lemma outcomes_lookup files : forall (σ : gmap string file) i filepath,
  files !! i = Some filepath ->
  outcomes files σ !! i = Some (outcome filepath (final_fs (take i files) σ)).
Proof.
  induction files as [|f files IH]; intros σ [|i] p E; try discriminate.
  - now invc E.
  - simpl in *. now apply IH.
Qed.

Lemma written_keeps_missing filepath p (σ : gmap string file) :
  σ !! p = None -> written filepath σ !! p = None.
Proof.
  intros E. unfold written. destruct (σ !! filepath) as [f|] eqn:Ef; [|assumption].
  destruct (readable f && snd (rewrite (content f)) && writable f); [|assumption].
  rewrite lookup_insert_ne; [assumption|]. intros ->. congruence.
Qed.

Lemma final_fs_keeps_missing files : forall p (σ : gmap string file),
  σ !! p = None -> final_fs files σ !! p = None.
Proof.
  induction files as [|f files IH]; intros p σ E; [assumption|].
  simpl. now apply IH, written_keeps_missing.
Qed.

Lemma final_fs_snoc files : forall (σ : gmap string file) i filepath,
  files !! i = Some filepath ->
  final_fs (take (S i) files) σ = written filepath (final_fs (take i files) σ).
Proof.
  induction files as [|f files IH]; intros σ [|i] p E; try discriminate.
  - now invc E.
  - simpl in *. now apply IH.
Qed.

Lemma main_spec files w :
  main files w
  = (inl (length (List.filter is_fixed (outcomes files (fs w)))),
     World (final_fs files (fs w))
           (console w ++ [MsgStart] ++ outcomes files (fs w)
            ++ [MsgTotal (length (List.filter is_fixed (outcomes files (fs w))))])).
Proof.
  destruct w as [σ out]. unfold main, print, mbind, IO_bind, mret, IO_ret.
  cbn [fs console]. rewrite sum_fix_file_spec. cbn [fs console].
  now rewrite <- !app_assoc.
Qed.

Lemma written_other filepath p (σ : gmap string file) :
  p ≠ filepath -> written filepath σ !! p = σ !! p.
Proof.
  intros Hne. unfold written. destruct (σ !! filepath) as [f|]; [|reflexivity].
  destruct (readable f && snd (rewrite (content f)) && writable f); [|reflexivity].
  now rewrite lookup_insert_ne.
Qed.

Lemma outcome_ext p (σ σ' : gmap string file) :
  σ' !! p = σ !! p -> outcome p σ' = outcome p σ.
Proof. intros E. unfold outcome. now rewrite E. Qed.

Lemma outcomes_ext files : forall (σ σ' : gmap string file),
  (forall p, In p files -> σ' !! p = σ !! p) ->
  NoDup files -> outcomes files σ' = outcomes files σ.
Proof.
  induction files as [|f files IH]; intros σ σ' Hagree Hnd; [reflexivity|].
  apply NoDup_cons in Hnd as [Hf Hnd]. simpl. f_equal.
  - apply outcome_ext, Hagree. now left.
  - apply IH; [|assumption]. intros p Hp.
    assert (p ≠ f) by (intros ->; apply Hf; now apply list_elem_of_In).
    rewrite !written_other by assumption. apply Hagree. now right.
Qed.

Lemma outcomes_NoDup files : forall (σ : gmap string file),
  NoDup files -> outcomes files σ = map (fun p => outcome p σ) files.
Proof.
  induction files as [|f files IH]; intros σ Hnd; [reflexivity|].
  pose proof Hnd as Hnd'. apply NoDup_cons in Hnd' as [Hf Hnd'].
  simpl. f_equal. rewrite <- IH by assumption.
  apply outcomes_ext; [|assumption]. intros p Hp.
  apply written_other. intros ->. apply Hf. now apply list_elem_of_In.
Qed.

Lemma is_fixed_outcome p (σ : gmap string file) :
  is_fixed (outcome p σ) = fixable σ p.
Proof.
  unfold outcome, fixable. destruct (σ !! p) as [f|]; [|reflexivity].
  now destruct (readable f), (snd (rewrite (content f))), (writable f).
Qed.

Lemma count_fixed_NoDup files (σ : gmap string file) :
  NoDup files ->
  length (List.filter is_fixed (outcomes files σ))
  = length (List.filter (fixable σ) files).
Proof.
  intros Hnd. rewrite outcomes_NoDup by assumption.
  induction files as [|f files IH]; [reflexivity|].
  apply NoDup_cons in Hnd as [_ Hnd]. simpl.
  rewrite is_fixed_outcome. destruct (fixable σ f); simpl; now rewrite IH.
Qed.

Lemma NoDup_files : NoDup files.
Proof. apply (bool_decide_unpack (NoDup files)). vm_compute. exact I. Qed.

(** The script's own run: the count is the number of its files that can be
    read, are changed and can be written. *)
Lemma main_files w :
  fst (main files w) = inl (length (List.filter (fixable (fs w)) files)).
Proof.
  rewrite main_spec. cbn [fst]. f_equal. apply count_fixed_NoDup, NoDup_files.
Qed.

(** An instance of the specification's shape is found by the check. *)
Lemma spec_instance_checked T : spec_instance T -> spec_instance_b T = true.
Proof.
  intros (pre & b & post & Hb & -> & Htop & Hpar).
  unfold spec_instance_b. apply existsb_exists. exists (length pre).
  assert (E : match_here pattern (drop (length pre) (pre ++ block_text b ++ post))
              = Some (block_caps b, post))
    by now rewrite drop_app_length, match_here_block.
  split.
  - apply match_positions_spec. rewrite E. eauto.
  - rewrite E, take_app_length, Htop. exact Hpar.
Qed.

(** The specification's shape is a case of the pattern's. *)
Lemma spec_instance_has_instance T : spec_instance T -> has_instance T.
Proof. intros (pre & b & post & Hb & E & _). now exists pre, b, post. Qed.

(** Scenario A holds an instance of the specification's shape. *)
Lemma scenarioA_spec_instance : spec_instance scenarioA.
Proof.
  exists [], scenarioA_block, []. split_and!.
  - apply is_block_by_match. vm_compute. reflexivity.
  - vm_compute. reflexivity.
  - reflexivity.
  - vm_compute. reflexivity.
Qed.

(** * The claims *)

(** C1, as the code has it. A second pass changes nothing when the keyword
    [export const ] occurs at most once in the text, and when every
    occurrence of it begins a block that the first pass rewrites; the output
    of Scenario A (Scenario D) is such a text. *)
Theorem rewrite_idempotent_on_simple_texts :
  (forall T : text,
     length (occurrences kw T) <= 1 ->
     rewrite (fst (rewrite T)) = (fst (rewrite T), false))
  ∧ (forall T : text,
       incl (occurrences kw T) (map fst (finditer pattern T)) ->
       rewrite (fst (rewrite T)) = (fst (rewrite T), false))
  ∧ rewrite scenarioA_fixed = (scenarioA_fixed, false).
Proof.
  split_and!.
  - apply idempotent_when_one_occurrence.
  - intros T Hall. apply rewrite_no_instance.
    apply (fixed_no_instance_when_all_start_blocks T 0). exact Hall.
  - apply rewrite_no_instance, no_positions_no_instance. vm_compute. reflexivity.
Qed.

Lemma rewrite_idempotent_on_simple_texts_witness :
  rewrite (fst (rewrite scenarioA)) = (fst (rewrite scenarioA), false)
  ∧ rewrite (fst (rewrite two_blocks)) = (fst (rewrite two_blocks), false).
Proof.
  split.
  - apply (proj1 rewrite_idempotent_on_simple_texts scenarioA).
    vm_compute. lia.
  - apply (proj1 (proj2 rewrite_idempotent_on_simple_texts) two_blocks).
    vm_compute. intros i [<-|[<-|[]]]; auto.
Defined.

(** C1 fails as stated: with one declaration nested in the parameter lines
    of another, the first pass rewrites the inner block and the second pass
    then rewrites the outer one. *)
Lemma second_pass_changes_nested :
  rewrite nested = (nested_once, true)
  ∧ rewrite (fst (rewrite nested)) = (nested_twice, true).
Proof. vm_compute. split; reflexivity. Qed.

(** C2, as the code has it. Scenario A: the block is reordered to the header,
    [name,], [value,], the closer and then the two hook lines, which keep the
    two-space indentation they had in the input; [changed] is true. *)
Theorem scenarioA_reordered : rewrite scenarioA = (scenarioA_fixed, true).
Proof. vm_compute. reflexivity. Qed.

(** C2 fails as stated: in the output of Scenario A the two hook lines are
    the lines they were in the input, indented by two spaces as before and
    not one level deeper. *)
Lemma scenarioA_hooks_keep_indent :
  let out := split_lines (fst (rewrite scenarioA)) in
  let inp := split_lines scenarioA in
  take 2 (drop 4 out) = [txt "  const { colors } = useX();";
                         txt "  const styles = useStyles();"]
  ∧ take 2 (drop 4 out) = take 2 (drop 1 inp)
  ∧ map indent (take 2 (drop 4 out)) = [2; 2]
  ∧ map indent (take 2 (drop 1 inp)) = [2; 2].
Proof. vm_compute. repeat split. Qed.

(** C3. For every matched block the two relocated hook lines are whole lines
    of the replacement, right after the closer, each indented by exactly two
    spaces. *)
Theorem relocated_hooks_indent_two (s : text) (m : caps) (rest : text) :
  match_here pattern s = Some (m, rest) ->
  exists h1 h2,
    group 2 m = drop 2 h1 ++ [nl] ++ h2
    ∧ re_sub pattern replacer s
      = (group 1 m ++ [nl] ++ group 3 m ++ closer
         ++ [nl] ++ h1 ++ [nl] ++ h2 ++ [nl]) ++ re_sub pattern replacer rest
    ∧ Forall (fun a => a ≠ nl) h1 ∧ Forall (fun a => a ≠ nl) h2
    ∧ indent h1 = 2 ∧ indent h2 = 2.
Proof.
  intros E. rewrite (sub_match _ _ _ E).
  apply match_here_Some in E as ([g1 g2 g3] & (_ & Hk & _) & -> & ->).
  destruct Hk as (l1 & l2 & [_ H1] & [_ H2] & Eg). simpl in Eg. subst g2.
  exists (txt "  const { colors" ++ l1), (txt "  const styles" ++ l2).
  split_and!.
  - reflexivity.
  - text_eq.
  - apply Forall_app. split; [|assumption]. vm_compute. repeat constructor; discriminate.
  - apply Forall_app. split; [|assumption]. vm_compute. repeat constructor; discriminate.
  - reflexivity.
  - reflexivity.
Qed.

Lemma relocated_hooks_indent_two_witness :
  exists h1 h2,
    txt "const { colors } = useX();" ++ [nl] ++ txt "  const styles = useStyles();"
    = drop 2 h1 ++ [nl] ++ h2
    ∧ re_sub pattern replacer scenarioA
      = (txt "export const Foo = ({" ++ [nl]
         ++ lines ["  name,"; "  value,"]%string ++ closer
         ++ [nl] ++ h1 ++ [nl] ++ h2 ++ [nl]) ++ re_sub pattern replacer []
    ∧ Forall (fun a => a ≠ nl) h1 ∧ Forall (fun a => a ≠ nl) h2
    ∧ indent h1 = 2 ∧ indent h2 = 2.
Proof.
  apply (relocated_hooks_indent_two scenarioA
           (block_caps scenarioA_block) []).
  vm_compute. reflexivity.
Defined.

(** C4, as the code has it. No-op on non-matching input: a text that
    contains no instance of the shape as the pattern defines it (a header
    anywhere on a line, parameter lines of any indented text) comes back
    character for character, with [changed = false].  ([rewrite] is a total
    function: there is no input on which it raises.) *)
Theorem rewrite_noop_without_instance (T : text) :
  ¬ has_instance T -> rewrite T = (T, false).
Proof. apply rewrite_no_instance. Qed.

Lemma rewrite_noop_without_instance_witness :
  ¬ has_instance plain_component
  ∧ rewrite plain_component = (plain_component, false).
Proof.
  assert (H : ¬ has_instance plain_component)
    by (apply no_positions_no_instance; vm_compute; reflexivity).
  split; [exact H|]. exact (rewrite_noop_without_instance plain_component H).
Defined.

(** C4 fails as stated: a text whose parameter lines are not identifiers,
    and a text whose header follows [// ] on its line, hold no instance of
    the shape as the specification words it, and both are rewritten. *)
Lemma rewritten_without_spec_instance :
  (¬ spec_instance loose_params
   ∧ rewrite loose_params = (loose_params_fixed, true))
  ∧ (¬ spec_instance commented
     ∧ rewrite commented = (commented_fixed, true)).
Proof.
  split; split.
  - intros H. apply spec_instance_checked in H. vm_compute in H. discriminate.
  - vm_compute. reflexivity.
  - intros H. apply spec_instance_checked in H. vm_compute in H. discriminate.
  - vm_compute. reflexivity.
Qed.

(** C5. Text outside the matched blocks is preserved: every position that
    lies in no span the scan replaces holds the same character in the output;
    each replaced span holds a block in the input and that block corrected
    in the output; and a text made of two blocks, matched at no other
    position, has both corrected with the text before, between and after
    them as it was. *)
Theorem text_outside_blocks_preserved :
  (forall (T : text) k,
     (forall i j, In (i, j) (finditer pattern T) -> k < i ∨ j <= k) ->
     fst (rewrite T) !! k = T !! k)
  ∧ (forall (T : text) i j,
       In (i, j) (finditer pattern T) ->
       exists b, is_block b ∧ take (j - i) (drop i T) = block_text b
                 ∧ take (j - i) (drop i (fst (rewrite T))) = block_fixed b)
  ∧ (forall a B1 b B2 c,
       is_block B1 -> is_block B2 ->
       match_positions (a ++ block_text B1 ++ b ++ block_text B2 ++ c)
       = [length a; length (a ++ block_text B1 ++ b)] ->
       rewrite (a ++ block_text B1 ++ b ++ block_text B2 ++ c)
       = (a ++ block_fixed B1 ++ b ++ block_fixed B2 ++ c, true)).
Proof.
  split_and!.
  - intros T k Hout. pose proof (sub_frame T 0 k) as H.
    rewrite Nat.sub_0_r in H. apply H; [lia|exact Hout].
  - intros T i j Hin. pose proof (spans_fixed T 0 i j Hin) as H.
    now rewrite Nat.sub_0_r in H.
  - intros a B1 b B2 c H1 H2 Hpos.
    pose proof (length_block_text_pos B1) as L1.
    pose proof (length_block_text_pos B2) as L2.
    assert (Hnone : forall i,
              i ≠ length a -> i ≠ length (a ++ block_text B1 ++ b) ->
              match_here pattern
                (drop i (a ++ block_text B1 ++ b ++ block_text B2 ++ c)) = None).
    { intros i Ha Hb. apply match_here_outside. rewrite Hpos.
      intros [E|[E|[]]]; congruence. }
    apply rewrite_eq.
    + rewrite sub_skip_prefix.
      2:{ intros j Hj. apply Hnone; rewrite ?length_app; lia. }
      rewrite sub_block by assumption. f_equal. f_equal.
      rewrite sub_skip_prefix.
      2:{ intros j Hj.
          specialize (Hnone (length a + length (block_text B1) + j)).
          rewrite <- !drop_drop, !drop_app_length in Hnone.
          apply Hnone; rewrite ?length_app; lia. }
      rewrite sub_block by assumption. f_equal. f_equal.
      apply sub_same_iff. intros j.
      specialize (Hnone (length a + length (block_text B1) + length b
                         + length (block_text B2) + j)).
      rewrite <- !drop_drop, !drop_app_length in Hnone.
      apply Hnone; rewrite ?length_app; lia.
    + exists a, B1, (b ++ block_text B2 ++ c). now split.
Qed.

Lemma text_outside_blocks_preserved_witness :
  rewrite two_blocks = (two_blocks_fixed, true)
  ∧ fst (rewrite two_blocks) !! 3 = two_blocks !! 3.
Proof.
  split.
  - apply (proj2 (proj2 text_outside_blocks_preserved)
             two_blocks_before (defect_block "Foo") two_blocks_between
             (defect_block "Bar") two_blocks_after).
    + apply is_block_by_match. vm_compute. reflexivity.
    + apply is_block_by_match. vm_compute. reflexivity.
    + vm_compute. reflexivity.
  - apply (proj1 text_outside_blocks_preserved two_blocks 3).
    vm_compute. intros i j [E|[E|[]]]; injection E as <- <-; lia.
Defined.

(** C6, as the code has it. A block is matched only when every line between
    the empty separator line and the closer is two spaces followed by at
    least one character other than a newline; any such lines are accepted,
    bare identifiers or not. *)
Theorem param_lines_are_any_indented_lines :
  (forall s m rest,
     match_here pattern s = Some (m, rest) ->
     exists hdr ps,
       ps ≠ [] ∧ Forall is_param_line ps ∧ group 3 m = concat ps
       ∧ s = hdr ++ [nl; nl] ++ concat ps ++ closer ++ rest)
  ∧ (forall g1 g2 ps rest,
       is_header g1 -> is_hooks g2 -> ps ≠ [] -> Forall is_param_line ps ->
       match_here pattern
         (g1 ++ (nl :: txt "  ") ++ g2 ++ [nl; nl] ++ concat ps ++ closer ++ rest)
       = Some (block_caps (Block g1 g2 (concat ps)), rest)).
Proof.
  split.
  - intros s m rest E.
    apply match_here_Some in E as ([g1 g2 g3] & (_ & _ & Hp) & -> & ->).
    destruct Hp as (ps & Hne & Hps & Eg). simpl in Eg. subst g3.
    exists (g1 ++ (nl :: txt "  ") ++ g2), ps.
    split_and!; [assumption|assumption|reflexivity|text_eq].
  - intros g1 g2 ps rest Hh Hk Hne Hps.
    replace (g1 ++ (nl :: txt "  ") ++ g2 ++ [nl; nl] ++ concat ps ++ closer ++ rest)
      with (block_text (Block g1 g2 (concat ps)) ++ rest) by text_eq.
    apply match_here_block. split_and!; [assumption|assumption|].
    exists ps. now split_and!.
Qed.

Lemma param_lines_are_any_indented_lines_witness :
  exists hdr ps,
    ps ≠ [] ∧ Forall is_param_line ps
    ∧ lines ["  name = 1,"; "  foo bar;"]%string = concat ps
    ∧ loose_params
      = hdr ++ [nl; nl] ++ concat ps ++ closer ++ [].
Proof.
  apply (proj1 param_lines_are_any_indented_lines loose_params
           (block_caps (Block (txt "export const Foo = ({")
              (txt "const { colors } = useX();" ++ [nl]
               ++ txt "  const styles = useStyles();")
              (lines ["  name = 1,"; "  foo bar;"]%string))) []).
  vm_compute. reflexivity.
Defined.

(** C6 fails as stated: parameter lines holding an assignment, or several
    tokens and a semicolon, are matched and the text is rewritten. *)
Lemma loose_params_rewritten :
  rewrite loose_params = (loose_params_fixed, true).
Proof. vm_compute. reflexivity. Qed.



(** C8, as the code has it. The header need not begin a line: whatever text
    precedes a block, on the same line or not, the block is rewritten, as
    long as the pattern matches at no earlier position. *)
Theorem header_matched_anywhere (pre s : text) (m : caps) (rest : text) :
  match_here pattern s = Some (m, rest) ->
  (forall j, j < length pre -> match_here pattern (drop j (pre ++ s)) = None) ->
  rewrite (pre ++ s) = (pre ++ replacer m ++ fst (rewrite rest), true).
Proof.
  intros E Hno. apply rewrite_eq.
  - rewrite sub_skip_prefix by assumption. now rewrite (sub_match _ _ _ E).
  - apply has_instance_iff. exists (length pre).
    rewrite drop_app_length, E. eauto.
Qed.

Lemma header_matched_anywhere_witness :
  rewrite (txt "// " ++ scenarioA)
  = (txt "// " ++ replacer (block_caps scenarioA_block)
       ++ fst (rewrite []), true).
Proof.
  apply (header_matched_anywhere (txt "// ") scenarioA).
  - vm_compute. reflexivity.
  - intros [|[|[|j]]] Hj; [vm_compute; reflexivity ..|simpl in Hj; lia].
Defined.

(** C8 fails as stated: a header that follows [// ] on its line is matched
    and the block is rewritten. *)
Lemma commented_header_rewritten :
  rewrite commented = (commented_fixed, true).
Proof. vm_compute. reflexivity. Qed.

(** C9. The driver never aborts: it prints one message per listed file, in
    order, and returns the number of [Fixed] messages.  A file is reported
    [Fixed] exactly when, at its turn, it exists, can be read, its text is
    changed by [rewrite] and it can be written, and then it holds the new
    text; a missing file is reported [not found]; a file that cannot be read,
    or whose new text cannot be written, is reported as an error; in those
    cases, and when the text is unchanged, the file system is left as it
    was.  When no file is listed twice, the count is the number of listed
    files that the file system at the start holds readable, changed by
    [rewrite] and writable. *)
Theorem driver_counts_fixed_files (files : list string) (w : world) :
  let outs := outcomes files (fs w) in
  let fixed := length (List.filter is_fixed outs) in
  main files w
  = (inl fixed,
     World (final_fs files (fs w))
           (console w ++ [MsgStart] ++ outs ++ [MsgTotal fixed]))
  ∧ length outs = length files
  ∧ (NoDup files -> fixed = length (List.filter (fixable (fs w)) files))
  ∧ forall i filepath,
      files !! i = Some filepath ->
      let σ := final_fs (take i files) (fs w) in
      let σ' := final_fs (take (S i) files) (fs w) in
      exists m,
        outs !! i = Some m
        ∧ (fs w !! filepath = None -> m = MsgNotFound filepath)
        ∧ (m = MsgNotFound filepath <-> σ !! filepath = None)
        ∧ (m = MsgFixed filepath <->
           exists f, σ !! filepath = Some f ∧ readable f = true
                     ∧ snd (rewrite (content f)) = true ∧ writable f = true)
        ∧ (m = MsgError filepath <->
           exists f, σ !! filepath = Some f
                     ∧ (readable f = false
                        ∨ (readable f = true ∧ snd (rewrite (content f)) = true
                           ∧ writable f = false)))
        ∧ (m = MsgNoChange filepath <->
           exists f, σ !! filepath = Some f ∧ readable f = true
                     ∧ snd (rewrite (content f)) = false)
        ∧ (forall f, m = MsgFixed filepath -> σ !! filepath = Some f ->
             σ' = <[filepath := File (fst (rewrite (content f))) true true]> σ)
        ∧ (m ≠ MsgFixed filepath -> σ' = σ).
Proof.
  intros outs fixed. split_and!.
  - apply main_spec.
  - apply length_outcomes.
  - apply count_fixed_NoDup.
  - intros i p Ei σ σ'. exists (outcome p σ).
    assert (Eσ' : σ' = written p σ) by now apply final_fs_snoc.
    split_and!.
    + now apply outcomes_lookup.
    + intros Hm. apply outcome_missing. now apply final_fs_keeps_missing.
    + unfold outcome. destruct (σ !! p) as [f|]; [|tauto].
      destruct (readable f), (snd (rewrite (content f))), (writable f);
        cbn [negb]; split; discriminate.
    + apply outcome_fixed_iff.
    + unfold outcome. destruct (σ !! p) as [f|].
      * destruct (readable f) eqn:Er, (snd (rewrite (content f))) eqn:Ec,
          (writable f) eqn:Ew; cbn [negb]; split; intros H; try discriminate;
          try (exists f; tauto);
          destruct H as (f' & Ef & [Hr|(Hr & Hc & Hw)]); injection Ef as <-;
          congruence.
      * split; [discriminate|]. intros (f & Ef & _). discriminate.
    + unfold outcome. destruct (σ !! p) as [f|].
      * destruct (readable f) eqn:Er, (snd (rewrite (content f))) eqn:Ec,
          (writable f) eqn:Ew; cbn [negb]; split; intros H; try discriminate;
          try (exists f; tauto);
          destruct H as (f' & Ef & Hr & Hc); injection Ef as <-; congruence.
      * split; [discriminate|]. intros (f & Ef & _). discriminate.
    + intros f Hm Ef. apply outcome_fixed_iff in Hm as (f' & Ef' & Hr & Hc & Hw).
      rewrite Ef in Ef'. injection Ef' as <-. rewrite Eσ'. now apply written_fixed.
    + intros Hm. rewrite Eσ'. now apply written_not_fixed.
Qed.

Lemma driver_counts_fixed_files_witness :
  main sample_files (World sample_fs [])
  = (inl 1,
     World (<["a.tsx"%string := File scenarioA_fixed true true]> sample_fs)
           [MsgStart; MsgFixed "a.tsx"; MsgNotFound "missing.tsx";
            MsgNoChange "b.tsx"; MsgError "c.tsx"; MsgError "d.tsx";
            MsgNoChange "a.tsx"; MsgTotal 1]).
Proof.
  rewrite (proj1 (driver_counts_fixed_files sample_files (World sample_fs []))).
  vm_compute. reflexivity.
Defined.

(** C10. Length preservation: for every text, the text [rewrite] produces has
    as many characters as the input. *)
Theorem rewrite_preserves_length (T : text) :
  length (fst (rewrite T)) = length T.
Proof. apply length_sub. Qed.

(** * Further properties of the code *)

(** X1. The pattern matches at the start of a text exactly when the text
    starts with a block, and then the groups are the parts of that block and
    the match ends where the block ends; a text starts with at most one
    block. *)
Theorem pattern_matches_exactly_blocks :
  (forall s m rest,
     match_here pattern s = Some (m, rest)
     <-> exists b, is_block b ∧ s = block_text b ++ rest ∧ m = block_caps b)
  ∧ (forall b b' rest rest',
       is_block b -> is_block b' ->
       block_text b ++ rest = block_text b' ++ rest' -> b = b' ∧ rest = rest').
Proof.
  split.
  - intros s m rest. split.
    + apply match_here_Some.
    + intros (b & Hb & -> & ->). now apply match_here_block.
  - intros b b' rest rest'. apply block_unique.
Qed.

Lemma pattern_matches_exactly_blocks_witness :
  match_here pattern (block_text memo_block ++ txt "x")
  = Some (block_caps memo_block, txt "x").
Proof.
  apply (proj1 pattern_matches_exactly_blocks).
  exists memo_block. split_and!; [|reflexivity|reflexivity].
  apply is_block_by_match. vm_compute. reflexivity.
Defined.

(** X2. The new content differs from the original, so the file is written
    back, exactly when the text holds an instance of the pattern: the text a
    match is replaced by is never the text of the match. *)
Theorem changed_iff_pattern_matches (T : text) :
  (snd (rewrite T) = true <-> has_instance T)
  ∧ (snd (rewrite T) = true <-> match_positions T ≠ []).
Proof.
  split; [apply rewrite_changed_iff|].
  rewrite rewrite_changed_iff, has_instance_iff. split.
  - intros [i Hi] E. apply match_positions_spec in Hi. rewrite E in Hi.
    contradiction.
  - intros Hne. destruct (match_positions T) as [|i l] eqn:E; [congruence|].
    exists i. apply match_positions_spec. rewrite E. now left.
Qed.

(** X3. A text in which [export const ] does not occur is returned as it is,
    unchanged. *)
Theorem no_keyword_no_change (T : text) :
  occurrences kw T = [] -> rewrite T = (T, false).
Proof.
  intros E. apply rewrite_no_instance. intros Hi.
  apply has_instance_iff in Hi as [i Hi].
  apply match_is_occurrence in Hi. rewrite E in Hi. contradiction.
Qed.

Lemma no_keyword_no_change_witness :
  rewrite (lines ["const Foo = ({"; "  name,"; "}) => {"])
  = (lines ["const Foo = ({"; "  name,"; "}) => {"], false).
Proof.
  apply (no_keyword_no_change (lines ["const Foo = ({"; "  name,"; "}) => {"])).
  vm_compute. reflexivity.
Defined.

(** X4. The type argument of [React.memo<...>] ends at the first [>]: a
    header whose first [>] is not followed by [(({] is not matched, so a
    wrapper with a nested generic type is left alone. *)
Theorem wrapper_type_ends_at_first_gt (name x rest : text) :
  Forall (fun a => is_word a = true) name ->
  Forall (fun a => a ≠ gt) x ->
  strip_prefix (txt "(({") rest = None ->
  match_here pattern (kw ++ name ++ txt " = React.memo<" ++ x ++ gt :: rest) = None.
Proof.
  intros Hn Hx Hrest.
  destruct (match_here pattern _) as [[m r]|] eqn:E; [exfalso|reflexivity].
  apply match_here_Some in E as ([g1 g2 g3] & (Hh & _ & _) & E & _).
  destruct Hh as (n' & wr & _ & Hn' & Hwr & Eg). cbn [func_start] in Eg.
  subst g1. unfold block_text in E. cbn [func_start hooks params] in E.
  rewrite <- !app_assoc in E. apply app_inv_head in E.
  change (txt " = React.memo<") with (" "%char :: txt "= React.memo<") in E.
  change (txt " = ") with (" "%char :: txt "= ") in E.
  simpl in E.
  apply (span_unique (fun a => is_word a = true)) in E as [_ E];
    [|assumption|assumption|rewrite is_word_space; discriminate
     |rewrite is_word_space; discriminate].
  injection E as E.
  destruct Hwr as [|x' _ Hx']; simpl in E; [discriminate|].
  injection E as E. rewrite <- ?app_assoc in E.
  apply (span_unique (fun a => a ≠ gt)) in E as [_ E];
    [|assumption|assumption|tauto|tauto].
  injection E as E. subst rest. simpl in Hrest. discriminate.
Qed.

Lemma wrapper_type_ends_at_first_gt_witness :
  match_here pattern nested_generic = None
  ∧ rewrite nested_generic = (nested_generic, false).
Proof.
  split.
  - change (match_here pattern
              (kw ++ txt "Foo" ++ txt " = React.memo<" ++ txt "Array<Props"
                  ++ gt :: drop 42 nested_generic) = None).
    apply (wrapper_type_ends_at_first_gt (txt "Foo") (txt "Array<Props")
             (drop 42 nested_generic)).
    + vm_compute. repeat constructor.
    + vm_compute. repeat constructor; discriminate.
    + vm_compute. reflexivity.
  - vm_compute. reflexivity.
Defined.

Lemma block_fixed_Permutation b : block_fixed b ≡ₚ block_text b.
Proof.
  unfold block_fixed, block_text. apply Permutation_app_head.
  set (X := nl :: txt "  ").
  transitivity (nl :: (params b ++ closer) ++ ((X ++ hooks b) ++ [nl])).
  { simpl. now rewrite <- !app_assoc. }
  rewrite (Permutation_app_comm (params b ++ closer)).
  rewrite Permutation_middle. now rewrite <- !app_assoc.
Qed.

(** X5. The output holds the characters of the input, each as many times:
    the rewrite reorders text and neither adds nor drops a character. *)
Theorem rewrite_permutes_characters (T : text) : fst (rewrite T) ≡ₚ T.
Proof.
  simpl. induction T as [|a s E IH|b rest Hb IH] using scan_ind.
  - reflexivity.
  - rewrite sub_skip by assumption. now constructor.
  - rewrite sub_block by assumption.
    now rewrite block_fixed_Permutation, IH.
Qed.

Lemma spans_from_ordered s : forall pos,
  spans_ordered pos (spans_from pos s)
  ∧ Forall (fun ij => snd ij <= pos + length s) (spans_from pos s).
Proof.
  induction s as [|a s E IH|b rest Hb IH] using scan_ind; intros pos.
  - split; [exact I|constructor].
  - rewrite spans_skip by assumption. destruct (IH (S pos)) as [Ho Hb].
    split.
    + destruct (spans_from (S pos) s) as [|[i j] l]; [exact I|].
      simpl in *. destruct Ho as (? & ? & ?). split_and!; [lia|assumption..].
    + eapply Forall_impl; [exact Hb|]. intros [i j]. simpl. lia.
  - rewrite spans_block by assumption.
    pose proof (length_block_text_pos b).
    destruct (IH (pos + length (block_text b))) as [Ho Hbd]. split.
    + simpl. split_and!; [lia|lia|assumption].
    + constructor; [simpl; rewrite length_app; lia|].
      eapply Forall_impl; [exact Hbd|]. intros [i j]. simpl.
      rewrite length_app. lia.
Qed.

(** X6. The matches the scan replaces come in order and do not overlap: each
    span is non-empty, starts at or after the end of the one before, and ends
    within the text. *)
Theorem matches_ordered_and_disjoint (T : text) :
  spans_ordered 0 (finditer pattern T)
  ∧ Forall (fun ij => snd ij <= length T) (finditer pattern T).
Proof. apply (spans_from_ordered T 0). Qed.

(** ** What the driver leaves alone *)

Lemma written_entry q p (σ : gmap string file) f' :
  written q σ !! p = Some f' ->
  exists f, σ !! p = Some f ∧ readable f' = readable f ∧ writable f' = writable f
            ∧ (content f' = content f ∨ content f' = fst (rewrite (content f))).
Proof.
  unfold written. destruct (σ !! q) as [f|] eqn:Eq; [|intros E; exists f'; tauto].
  destruct (readable f && snd (rewrite (content f)) && writable f) eqn:Ec;
    [|intros E; exists f'; tauto].
  destruct (decide (p = q)) as [->|Hne].
  - rewrite lookup_insert_eq. intros E. invc E. exists f.
    apply andb_true_iff in Ec as [_ Ew]. cbn [readable writable content].
    split_and!; [assumption|reflexivity|now symmetry|now right].
  - rewrite lookup_insert_ne by congruence. intros E. exists f'. tauto.
Qed.




(** ** Running the script again *)

Lemma rewrite_unchanged_fst T : snd (rewrite T) = false -> fst (rewrite T) = T.
Proof.
  unfold rewrite, text_eqb. simpl. intros E. apply negb_false_iff in E.
  now apply bool_decide_eq_true in E.
Qed.

Lemma written_settles q (σ : gmap string file) : settles σ -> settles (written q σ).
Proof.
  intros Hs p f' E. pose proof E as E'.
  apply written_entry in E' as (f & Ef & _ & _ & [Hc|Hc]); rewrite Hc.
  - eapply Hs, Ef.
  - pose proof (Hs p f Ef) as H2. now rewrite (rewrite_unchanged_fst _ H2).
Qed.

Lemma fixable_after_written q (σ : gmap string file) :
  settles σ -> fixable (written q σ) q = false.
Proof.
  intros Hs. unfold fixable, written.
  destruct (σ !! q) as [f|] eqn:Eq; [|now rewrite Eq].
  destruct (readable f && snd (rewrite (content f)) && writable f) eqn:Ec.
  - rewrite lookup_insert_eq. cbn [readable writable content].
    rewrite (Hs q f Eq). now rewrite andb_false_r.
  - now rewrite Eq.
Qed.

Lemma written_not_fixable q (σ : gmap string file) :
  fixable σ q = false -> written q σ = σ.
Proof.
  unfold fixable, written. destruct (σ !! q) as [f|]; [|reflexivity].
  now intros ->.
Qed.

Lemma fixable_ext p (σ σ' : gmap string file) :
  σ' !! p = σ !! p -> fixable σ' p = fixable σ p.
Proof. intros E. unfold fixable. now rewrite E. Qed.

Lemma not_fixable_stays files : forall (σ : gmap string file) p,
  fixable σ p = false -> fixable (final_fs files σ) p = false.
Proof.
  induction files as [|q files IH]; intros σ p Hp; [assumption|].
  cbn [final_fs]. apply IH.
  destruct (decide (p = q)) as [->|Hne].
  - now rewrite written_not_fixable.
  - rewrite (fixable_ext p σ); [assumption|]. now apply written_other.
Qed.

Lemma final_fs_not_fixable files : forall (σ : gmap string file) p,
  settles σ -> In p files -> fixable (final_fs files σ) p = false.
Proof.
  induction files as [|q files IH]; intros σ p Hs Hin; [contradiction|].
  cbn [final_fs]. destruct Hin as [->|Hin].
  - apply not_fixable_stays. now apply fixable_after_written.
  - apply IH; [now apply written_settles|assumption].
Qed.

Lemma nothing_to_fix files : forall (σ : gmap string file),
  (forall p, In p files -> fixable σ p = false) ->
  final_fs files σ = σ
  ∧ Forall (fun m => is_fixed m = false) (outcomes files σ).
Proof.
  induction files as [|q files IH]; intros σ Hno; [split; [reflexivity|constructor]|].
  cbn [final_fs outcomes].
  assert (Hq : fixable σ q = false) by (apply Hno; now left).
  rewrite written_not_fixable by assumption.
  destruct (IH σ) as [E Hall]; [intros p Hp; apply Hno; now right|].
  split; [assumption|]. constructor; [|assumption].
  now rewrite is_fixed_outcome.
Qed.

Lemma filter_none {A} (f : A -> bool) l :
  Forall (fun a => f a = false) l -> List.filter f l = [].
Proof.
  induction 1 as [|a l Ha _ IH]; [reflexivity|]. simpl. now rewrite Ha.
Qed.

(** X8. Running the script a second time fixes nothing: when every file
    holds [export const ] at most once, the second run reports no file as
    fixed, counts zero and leaves the file system as the first run left
    it. *)
Theorem second_run_fixes_nothing (files : list string) (w : world) :
  map_Forall (fun _ f => length (occurrences kw (content f)) <= 1) (fs w) ->
  let w1 := snd (main files w) in
  fst (main files w1) = inl 0
  ∧ fs (snd (main files w1)) = fs w1
  ∧ Forall (fun m => is_fixed m = false) (outcomes files (fs w1)).
Proof.
  intros Hone w1.
  assert (Hs : settles (fs w)).
  { intros p f E. apply Hone in E. cbn beta in E.
    now rewrite (idempotent_when_one_occurrence _ E). }
  assert (E1 : fs w1 = final_fs files (fs w)).
  { unfold w1. now rewrite main_spec. }
  destruct (nothing_to_fix files (fs w1)) as [Efs Hall].
  { intros p Hp. rewrite E1. now apply final_fs_not_fixable. }
  rewrite main_spec. cbn [fst snd fs]. rewrite Efs.
  split_and!; [|reflexivity|assumption].
  now rewrite (filter_none _ _ Hall).
Qed.

Lemma second_run_fixes_nothing_witness :
  let w1 := snd (main sample_files (World sample_fs [])) in
  fst (main sample_files w1) = inl 0
  ∧ fs (snd (main sample_files w1)) = fs w1
  ∧ Forall (fun m => is_fixed m = false) (outcomes sample_files (fs w1)).
Proof.
  apply (second_run_fixes_nothing sample_files (World sample_fs [])).
  unfold sample_fs. cbn [fs].
  repeat (apply map_Forall_insert_2; [vm_compute; lia|]).
  apply map_Forall_empty.
Defined.

(** X9. The script's own list names 21 distinct paths, so its run prints one
    message for each, judged in the file system it started from, and the
    count it reports is the number of listed files that can be read, are
    changed by the rewrite and can be written. *)
Theorem script_run_counts_fixable_files (w : world) :
  NoDup files ∧ length files = 21
  ∧ outcomes files (fs w) = map (fun p => outcome p (fs w)) files
  ∧ fst (main files w) = inl (length (List.filter (fixable (fs w)) files)).
Proof.
  split_and!.
  - apply NoDup_files.
  - reflexivity.
  - apply outcomes_NoDup, NoDup_files.
  - rewrite main_spec. cbn [fst]. f_equal. apply count_fixed_NoDup, NoDup_files.
Qed.

Lemma all_missing_outcomes files : forall (σ : gmap string file),
  (forall p, In p files -> σ !! p = None) ->
  outcomes files σ = map MsgNotFound files ∧ final_fs files σ = σ.
Proof.
  induction files as [|q files IH]; intros σ Hm; [now split|].
  cbn [outcomes final_fs map].
  assert (Eq : σ !! q = None) by (apply Hm; now left).
  assert (Ew : written q σ = σ) by (unfold written; now rewrite Eq).
  rewrite Ew. destruct (IH σ) as [Eo Ef]; [intros p Hp; apply Hm; now right|].
  split; [|assumption]. rewrite Eo. f_equal. now apply outcome_missing.
Qed.

(** X10. When none of the listed files exists, for example from the wrong
    working directory, the run prints a [not found] message for each, counts
    zero and changes no file. *)
Theorem run_with_all_files_missing (files : list string) (w : world) :
  (forall p, In p files -> fs w !! p = None) ->
  main files w
  = (inl 0, World (fs w)
              (console w ++ [MsgStart] ++ map MsgNotFound files ++ [MsgTotal 0])).
Proof.
  intros Hm. rewrite main_spec.
  destruct (all_missing_outcomes files (fs w) Hm) as [-> ->].
  assert (E : List.filter is_fixed (map MsgNotFound files) = []).
  { apply filter_none, Forall_forall. intros m Hin.
    apply list_elem_of_In, in_map_iff in Hin as (p & <- & _). reflexivity. }
  now rewrite E.
Qed.

Lemma run_with_all_files_missing_witness :
  main files (World ∅ [])
  = (inl 0, World ∅ ([] ++ [MsgStart] ++ map MsgNotFound files ++ [MsgTotal 0])).
Proof.
  apply (run_with_all_files_missing files (World ∅ [])).
  intros p _. apply lookup_empty.
Defined.
